(** * Diceball matchmaking server: a shallow embedding of [main.go]

    The server keeps three pieces of global state: the [players] map, the
    [pool] slice and the [rooms] map.  [players] and [pool] hold *pointers*
    to [Player] structs, and [matchPlayers] mutates the structs through the
    pointers it reads from [pool]; the sharing is modelled by an explicit
    heap of [Player] cells addressed by natural numbers.

    Every critical section of the source is one transition of the model:
    [handleJoin], [handleCancel], the stats snapshot and one iteration of
    [matchPlayers] or [cleanupOldRooms] hold [poolMutex] from their first
    access to their last.  [handleStatus] releases the lock between its
    lookup, its [select] and its [delete]; it is modelled both as the
    composed handler and as separate [select] and [delete] transitions
    that other requests may interleave with.  The two values the program
    reads from its environment, [time.Now()] and [uuid.New().String()],
    are arguments of the transitions. *)

From Stdlib Require Import ZArith.
From stdpp Require Import functions strings gmap fin_maps list.

Local Open Scope Z_scope.
Local Open Scope string_scope.
Local Open Scope list_scope.

(** ** Buffered channels ([chan string]) *)

Module Chan.

(** A buffered channel is its queue of pending values and its capacity. *)
Record t := mk { buf : list string; cap : nat }.

(** [make(chan string, n)] *)
Definition make (n : nat) : t := {| buf := []; cap := n |}.

(** [c <- v]: [None] when the buffer is full, where the sender blocks. *)
Definition send (v : string) (c : t) : option t :=
  if decide (length (buf c) < cap c)%nat
  then Some {| buf := buf c ++ [v]; cap := cap c |}
  else None.

(** [select { case v := <-c: ...  default: ... }]: the value and the
    remaining channel, or [None] when the [default] branch is taken. *)
Definition try_recv (c : t) : option (string * t) :=
  match buf c with
  | [] => None
  | v :: q => Some (v, {| buf := q; cap := cap c |})
  end.

End Chan.

(** ** Data model *)

Record Player := mkPlayer {
  ID : string;
  Matched : bool;
  CreatedAt : Z;
  OpponentID : Chan.t;
  RoomID : string
}.

Record ServerStats := mkServerStats {
  TotalPlayers : Z;
  WaitingPlayers : Z;
  MatchedPlayers : Z;
  ActiveRooms : Z
}.

(** A [*Player] is an address in the heap of allocated [Player] structs.
    Go pointers obtained from [&Player{...}] never dangle, so the heap is a
    total function together with the next free address. *)
Definition addr := nat.

Record State := mkState {
  heap : addr → Player;
  next_addr : addr;
  players : gmap string addr;
  rooms : gmap string (list string);
  pool : list addr
}.

Definition zero_Player : Player :=
  {| ID := ""; Matched := false; CreatedAt := 0;
     OpponentID := Chan.make 0; RoomID := "" |}.

(** The package-level [var] block: empty maps and a nil slice. *)
Definition init : State :=
  {| heap := λ _, zero_Player; next_addr := 0%nat;
     players := ∅; rooms := ∅; pool := [] |}.

(** Field assignments through a pointer. *)
Definition set_RoomID (r : string) (p : Player) : Player :=
  {| ID := ID p; Matched := Matched p; CreatedAt := CreatedAt p;
     OpponentID := OpponentID p; RoomID := r |}.

Definition set_Matched (b : bool) (p : Player) : Player :=
  {| ID := ID p; Matched := b; CreatedAt := CreatedAt p;
     OpponentID := OpponentID p; RoomID := RoomID p |}.

Definition set_OpponentID (c : Chan.t) (p : Player) : Player :=
  {| ID := ID p; Matched := Matched p; CreatedAt := CreatedAt p;
     OpponentID := c; RoomID := RoomID p |}.

(** [p.OpponentID <- v] on the heap; [None] when the send blocks. *)
Definition heap_send (a : addr) (v : string) (h : addr → Player)
  : option (addr → Player) :=
  c ← Chan.send v (OpponentID (h a));
  Some (alter (set_OpponentID c) a h).

(** ** Go's [int] and [len] *)

Definition int_min : Z := - 2 ^ 63.

(** Two's complement wrap-around of a 64-bit [int]. *)
Definition int_wrap (z : Z) : Z := (z + 2 ^ 63) mod 2 ^ 64 - 2 ^ 63.

Definition int_sub (a b : Z) : Z := int_wrap (a - b).

Definition len_map {V} (m : gmap string V) : Z := Z.of_nat (size m).
Definition len_slice {A} (l : list A) : Z := Z.of_nat (length l).

(** ** HTTP responses *)

Definition StatusBadRequest : Z := 400.
Definition StatusNotFound : Z := 404.

Inductive Response :=
| HttpError (msg : string) (code : Z)        (* [http.Error(w, msg, code)] *)
| JsonMap (body : gmap string string).       (* [json.NewEncoder(w).Encode(m)] *)

(** ** Handlers *)

(** [handleJoin]; [now] is the value of [time.Now()]. *)
Definition handleJoin (playerID : string) (now : Z) (s : State)
  : Response * State :=
  if decide (playerID = "") then
    (HttpError "ID is required" StatusBadRequest, s)
  else
    let player := {| ID := playerID; Matched := false; CreatedAt := now;
                     OpponentID := Chan.make 1; RoomID := "" |} in
    let p := next_addr s in
    (JsonMap (<["status" := "waiting"]> (<["playerID" := playerID]> ∅)),
     {| heap := <[p := player]> (heap s);
        next_addr := S p;
        players := <[playerID := p]> (players s);
        rooms := rooms s;
        pool := pool s ++ [p] |}).

(** The loop of [handleCancel]: drop the first entry whose [ID] is
    [playerID], then [break]. *)
Fixpoint pool_remove (h : addr → Player) (playerID : string)
    (l : list addr) : list addr :=
  match l with
  | [] => []
  | p :: l' =>
      if decide (ID (h p) = playerID) then l'
      else p :: pool_remove h playerID l'
  end.

Definition handleCancel (playerID : string) (s : State) : Response * State :=
  if decide (playerID = "") then
    (HttpError "ID is required" StatusBadRequest, s)
  else
    (JsonMap (<["status" := "cancelled"]> ∅),
     {| heap := heap s;
        next_addr := next_addr s;
        players := delete playerID (players s);
        rooms := rooms s;
        pool := pool_remove (heap s) playerID (pool s) |}).

(** [handleStatus] takes [poolMutex] twice and runs its [select] in
    between without a lock.  The [select] on a player's channel: the
    received value, if there is one, and the state with the channel
    drained. *)
Definition status_select (player : addr) (s : State) : option string * State :=
  match Chan.try_recv (OpponentID (heap s player)) with
  | Some (opponentID, c) =>
      (Some opponentID,
       {| heap := alter (set_OpponentID c) player (heap s);
          next_addr := next_addr s; players := players s;
          rooms := rooms s; pool := pool s |})
  | None => (None, s)
  end.

(** The second critical section: [delete(players, playerID)]. *)
Definition status_reap (playerID : string) (s : State) : State :=
  {| heap := heap s; next_addr := next_addr s;
     players := delete playerID (players s);
     rooms := rooms s; pool := pool s |}.

(** [handleStatus] when no other request or loop runs between its
    lookup, its [select] and its [delete]. *)
Definition handleStatus (playerID : string) (s : State) : Response * State :=
  if decide (playerID = "") then
    (HttpError "ID is required" StatusBadRequest, s)
  else
    match players s !! playerID with
    | None => (HttpError "Player not found" StatusNotFound, s)
    | Some player =>
        match status_select player s with
        | (Some opponentID, s1) =>
            (JsonMap (<["status" := "matched"]>
                     (<["opponentID" := opponentID]>
                     (<["roomID" := RoomID (heap s1 player)]> ∅))),
             status_reap playerID s1)
        | (None, _) => (JsonMap (<["status" := "waiting"]> ∅), s)
        end
    end.

(** The data handed to the stats template. *)
Record StatsData := mkStatsData {
  Stats : ServerStats;
  WaitingPlayersList : list addr;
  ActiveRoomsList : gmap string (list string)
}.

(** [getStats] (also the first statement of [statsHandler]). *)
Definition getStats (s : State) : ServerStats :=
  {| TotalPlayers := len_map (players s);
     WaitingPlayers := len_slice (pool s);
     MatchedPlayers := int_sub (len_map (players s)) (len_slice (pool s));
     ActiveRooms := len_map (rooms s) |}.

(** [for _, p := range players { if !p.Matched { append } }]; the
    iteration order of a Go map is unspecified, [map_to_list] fixes one. *)
Definition waitingPlayers (s : State) : list addr :=
  foldl (λ acc kv, if negb (Matched (heap s kv.2)) then acc ++ [kv.2] else acc)
        [] (map_to_list (players s)).

(** [for k, v := range rooms { roomsCopy[k] = v }] *)
Definition roomsCopy (s : State) : gmap string (list string) :=
  foldl (λ acc kv, <[kv.1 := kv.2]> acc) ∅ (map_to_list (rooms s)).

Definition statsHandler (s : State) : StatsData * State :=
  ({| Stats := getStats s;
      WaitingPlayersList := waitingPlayers s;
      ActiveRoomsList := roomsCopy s |}, s).

(** ** Background loops, one iteration each *)

(** The body of the loop of [matchPlayers]; [roomID] is the value of
    [uuid.New().String()].  [None] when one of the two channel sends
    blocks. *)
Definition matchPlayers (roomID : string) (s : State) : option State :=
  match pool s with
  | p1 :: p2 :: rest =>
      let h := alter (set_RoomID roomID) p1 (heap s) in
      let h := alter (set_RoomID roomID) p2 h in
      let h := alter (set_Matched true) p1 h in
      let h := alter (set_Matched true) p2 h in
      let rooms' := <[roomID := [ID (h p1); ID (h p2)]]> (rooms s) in
      h ← heap_send p1 (ID (h p2)) h;
      h ← heap_send p2 (ID (h p1)) h;
      Some {| heap := h; next_addr := next_addr s; players := players s;
              rooms := rooms'; pool := rest |}
  | _ => Some s
  end.

(** One visit of the loop of [cleanupOldRooms] in [main.go]; [None] when
    an index into [roomPlayers] is out of range. *)
Definition cleanup_visit (pl : gmap string addr)
    (acc : option (gmap string (list string))) (kv : string * list string)
  : option (gmap string (list string)) :=
  rs ← acc;
  i0 ← kv.2 !! 0%nat;
  i1 ← kv.2 !! 1%nat;
  let p1Exists := bool_decide (is_Some (pl !! i0)) in
  let p2Exists := bool_decide (is_Some (pl !! i1)) in
  if negb p1Exists || negb p2Exists then Some (delete kv.1 rs) else Some rs.

Definition cleanupOldRooms (s : State) : option State :=
  rs ← foldl (cleanup_visit (players s)) (Some (rooms s))
             (map_to_list (rooms s));
  Some {| heap := heap s; next_addr := next_addr s; players := players s;
          rooms := rs; pool := pool s |}.

(** The same loop in the second copy of the program, which deletes a room
    only when *both* members are gone. *)
Definition cleanup_visit_both (pl : gmap string addr)
    (acc : option (gmap string (list string))) (kv : string * list string)
  : option (gmap string (list string)) :=
  rs ← acc;
  i0 ← kv.2 !! 0%nat;
  i1 ← kv.2 !! 1%nat;
  let p1Exists := bool_decide (is_Some (pl !! i0)) in
  let p2Exists := bool_decide (is_Some (pl !! i1)) in
  if negb p1Exists && negb p2Exists then Some (delete kv.1 rs) else Some rs.

Definition cleanupOldRooms_both (s : State) : option State :=
  rs ← foldl (cleanup_visit_both (players s)) (Some (rooms s))
             (map_to_list (rooms s));
  Some {| heap := heap s; next_addr := next_addr s; players := players s;
          rooms := rs; pool := pool s |}.

(** ** Executions *)

Inductive Event :=
| EJoin (playerID : string) (now : Z)
| ECancel (playerID : string)
| EStatus (playerID : string)
| EStatusSelect (player : addr)      (* the [select] of a poll in progress *)
| EStatusReap (playerID : string)    (* the [delete] of a poll in progress *)
| EStats
| EMatch (roomID : string)
| ECleanup.

Definition step (e : Event) (s : State) : option State :=
  match e with
  | EJoin playerID now => Some (handleJoin playerID now s).2
  | ECancel playerID => Some (handleCancel playerID s).2
  | EStatus playerID => Some (handleStatus playerID s).2
  | EStatusSelect player => Some (status_select player s).2
  | EStatusReap playerID => Some (status_reap playerID s)
  | EStats => Some (statsHandler s).2
  | EMatch roomID => matchPlayers roomID s
  | ECleanup => cleanupOldRooms s
  end.

Fixpoint run (evs : list Event) (s : State) : option State :=
  match evs with
  | [] => Some s
  | e :: evs' => s' ← step e s; run evs' s'
  end.

(** [reach G s0 s]: [s] is reached from [s0] by events that each satisfy
    the guard [G] in the state where they happen. *)
Inductive reach (G : Event → State → Prop) (s0 : State) : State → Prop :=
| reach_refl : reach G s0 s0
| reach_step e s s' :
    reach G s0 s → G e s → step e s = Some s' → reach G s0 s'.

Definition reachable : State → Prop := reach (λ _ _, True) init.

(** The ids carried by the entries of the pool, front first. *)
Definition pool_ids (s : State) : list string :=
  (λ p, ID (heap s p)) <$> pool s.

(** No [/join] for an id that still has an entry in the pool. *)
Definition no_rejoin (e : Event) (s : State) : Prop :=
  ∀ playerID now, e = EJoin playerID now → playerID ∉ pool_ids s.


Definition the (o : option State) : State := default init o.

(** ** The invariant of reachable states *)

Record wf (s : State) : Prop := mk_wf {
  wf_pool_bound : ∀ p, p ∈ pool s → (p < next_addr s)%nat;
  wf_pool_nodup : NoDup (pool s);
  wf_pool_unmatched : ∀ p, p ∈ pool s → Matched (heap s p) = false;
  wf_pool_chan : ∀ p, p ∈ pool s → OpponentID (heap s p) = Chan.make 1;
  wf_players_bound : ∀ k p, players s !! k = Some p → (p < next_addr s)%nat;
  wf_players_id : ∀ k p, players s !! k = Some p → ID (heap s p) = k;
  wf_players_key : players s !! "" = None;
  wf_rooms_len : ∀ k r, rooms s !! k = Some r → length r = 2%nat
}.

(** ** The result of a pairing *)

(** A matched [Player] as [matchPlayers] leaves it. *)
Definition paired (roomID opponent : string) (p : Player) : Player :=
  {| ID := ID p; Matched := true; CreatedAt := CreatedAt p;
     OpponentID := {| Chan.buf := [opponent]; Chan.cap := 1 |};
     RoomID := roomID |}.

(** The heap after the six pointer writes of a pairing. *)
Definition paired_heap (roomID : string) (p1 p2 : addr) (h : addr → Player)
  : addr → Player :=
  alter (set_OpponentID {| Chan.buf := [ID (h p1)]; Chan.cap := 1 |}) p2
    (alter (set_OpponentID {| Chan.buf := [ID (h p2)]; Chan.cap := 1 |}) p1
      (alter (set_Matched true) p2 (alter (set_Matched true) p1
        (alter (set_RoomID roomID) p2 (alter (set_RoomID roomID) p1 h))))).

(** ** Responses and fresh players by name *)

Definition matched_response (opponentID roomID : string) : Response :=
  JsonMap (<["status" := "matched"]> (<["opponentID" := opponentID]>
          (<["roomID" := roomID]> ∅))).

Definition waiting_response : Response :=
  JsonMap (<["status" := "waiting"]> ∅).

Definition not_found : Response :=
  HttpError "Player not found" StatusNotFound.

Definition id_required : Response :=
  HttpError "ID is required" StatusBadRequest.

Definition joined_response (playerID : string) : Response :=
  JsonMap (<["status" := "waiting"]> (<["playerID" := playerID]> ∅)).

Definition cancelled_response : Response :=
  JsonMap (<["status" := "cancelled"]> ∅).

Definition new_Player (playerID : string) (now : Z) : Player :=
  {| ID := playerID; Matched := false; CreatedAt := now;
     OpponentID := Chan.make 1; RoomID := "" |}.

(** ** Sample executions *)

(** Two different ids join. *)
Definition trace_AB : list Event := [EJoin "A" 1; EJoin "B" 2].
Definition state_AB : State := the (run trace_AB init).

(** The same id joins twice before any matching tick. *)
Definition trace_AA : list Event := [EJoin "A" 1; EJoin "A" 2].
Definition state_AA : State := the (run trace_AA init).

(** The same id joins twice and is cancelled once. *)
Definition trace_AA_cancel : list Event :=
  [EJoin "A" 1; EJoin "A" 2; ECancel "A"].
Definition state_AA_cancel : State := the (run trace_AA_cancel init).

(** Two ids join and are paired in room ["r"]. *)
Definition trace_AB_matched : list Event :=
  [EJoin "A" 1; EJoin "B" 2; EMatch "r"].
Definition state_AB_matched : State := the (run trace_AB_matched init).

(** ["A"] and ["B"] are paired in room ["r"], then ["A"] polls and is
    reaped while ["B"] is still registered. *)
Definition trace_A_polled : list Event :=
  [EJoin "A" 1; EJoin "B" 2; EMatch "r"; EStatus "A"].
Definition state_A_polled : State := the (run trace_A_polled init).

(** ** Batches of requests *)

(** A batch of [/join] requests, each with its id and its clock reading. *)
Definition join_events (js : list (string * Z)) : list Event :=
  (λ j, EJoin j.1 j.2) <$> js.

(** Consecutive iterations of [matchPlayers], one generated room id each. *)
Definition match_events (roomIDs : list string) : list Event :=
  EMatch <$> roomIDs.

(** The ids of a batch that [handleJoin] accepts. *)
Definition accepted_ids (js : list (string * Z)) : list string :=
  filter (λ x, x ≠ "") js.*1.

(** Five players queue up. *)
Definition trace_five : list Event :=
  join_events [("A", 1); ("B", 2); ("C", 3); ("D", 4); ("E", 5)].
Definition state_five : State := the (run trace_five init).

(** ** A second invariant: result channels, ids and the waiting list *)

Record inv (s : State) : Prop := mk_inv {
  inv_blank : ∀ a, Matched (heap s a) = false →
    Chan.buf (OpponentID (heap s a)) = [] ∧ RoomID (heap s a) = "";
  inv_chan_bound : ∀ a, (length (Chan.buf (OpponentID (heap s a))) ≤ 1)%nat;
  inv_pool_id : ∀ p, p ∈ pool s → ID (heap s p) ≠ "";
  inv_rooms_id : ∀ k r x, rooms s !! k = Some r → x ∈ r → x ≠ "";
  inv_queued : ∀ k p, players s !! k = Some p →
    Matched (heap s p) = false → p ∈ pool s
}.

(** ** Orderly executions *)





(** ["B"] joins twice, then ["A"] joins. *)
Definition trace_BBA : list Event :=
  [EJoin "B" 1; EJoin "B" 2; EJoin "A" 3].
Definition state_BBA : State := the (run trace_BBA init).

(** * Properties *)

(** ** The scenario of the specification *)

Example scenario_join_alone_waits :
  (handleStatus "A" (the (run [EJoin "A" 1; EMatch "r"] init))).1
    = waiting_response.
Proof. vm_compute. reflexivity. Qed.

Example scenario_join_cancel :
  let s := the (run [EJoin "A" 1; ECancel "A"; EJoin "B" 2; EMatch "r"] init) in
  (handleStatus "A" s).1 = not_found ∧ rooms s = ∅ ∧ pool_ids s = ["B"].
Proof. vm_compute. auto. Qed.

Example scenario_both_polled_then_cleanup :
  (s ← run [EJoin "A" 1; EJoin "B" 2; EMatch "r"; EStatus "A"; EStatus "B";
            ECleanup] init;
   Some (rooms s, players s, pool s)) = Some (∅, ∅, []).
Proof. vm_compute. reflexivity. Qed.

Example scenario_join_join_match :
  let s := the (run [EJoin "A" 1; EJoin "B" 2; EMatch "r"] init) in
  (handleStatus "A" s).1 =
    JsonMap (<["status" := "matched"]> (<["opponentID" := "B"]>
            (<["roomID" := "r"]> ∅))) ∧
  pool s = [] ∧ rooms s !! "r" = Some ["A"; "B"].
Proof. vm_compute. auto. Qed.

(** ** Pointer writes and the cancel loop *)

Ltac heap_simpl :=
  repeat first
    [ rewrite fn_lookup_alter
    | rewrite fn_lookup_alter_ne by congruence
    | rewrite fn_lookup_insert
    | rewrite fn_lookup_insert_ne by congruence ].

Section heap_facts.
Context (h : addr → Player).

Lemma ID_set_RoomID r p : ID (set_RoomID r p) = ID p.
Proof. reflexivity. Qed.

Lemma ID_set_Matched b p : ID (set_Matched b p) = ID p.
Proof. reflexivity. Qed.

Lemma ID_set_OpponentID c p : ID (set_OpponentID c p) = ID p.
Proof. reflexivity. Qed.

(** An [alter] that keeps the [ID] field keeps every [ID] of the heap. *)
Lemma ID_alter (f : Player → Player) a x :
  (∀ p, ID (f p) = ID p) → ID (alter f a h x) = ID (h x).
Proof.
  intros Hf. destruct (decide (a = x)) as [->|Hne].
  - by rewrite fn_lookup_alter.
  - by rewrite fn_lookup_alter_ne.
Qed.

Lemma pool_remove_sublist x l : pool_remove h x l `sublist_of` l.
Proof.
  induction l as [|p l IH]; simpl; [constructor|].
  case_decide; [by apply sublist_cons | by apply sublist_skip].
Qed.

(** The loop finds nothing to remove when no entry carries the id. *)
Lemma pool_remove_absent x l :
  x ∉ (λ p, ID (h p)) <$> l → pool_remove h x l = l.
Proof.
  induction l as [|p l IH]; simpl; [done|].
  intros [Hp Hl]%not_elem_of_cons.
  case_decide; [congruence | by rewrite IH].
Qed.

(** Once the only entry of an id is removed, the id is gone. *)
Lemma pool_remove_gone x l :
  NoDup ((λ p, ID (h p)) <$> l) →
  x ∉ (λ p, ID (h p)) <$> pool_remove h x l.
Proof.
  induction l as [|p l IH]; simpl; [intros _; apply not_elem_of_nil|].
  intros [Hp Hl]%NoDup_cons.
  case_decide as Hx; [by rewrite <- Hx|].
  rewrite fmap_cons, not_elem_of_cons. split; [congruence | by apply IH].
Qed.

Lemma pool_remove_ids_sublist x l :
  ((λ p, ID (h p)) <$> pool_remove h x l)
    `sublist_of` ((λ p, ID (h p)) <$> l).
Proof. apply fmap_sublist, pool_remove_sublist. Qed.
End heap_facts.

(** Heaps that agree on the [ID]s of the pool give the same [pool_ids]. *)
Lemma fmap_ID_ext (h h' : addr → Player) (l : list addr) :
  (∀ p, p ∈ l → ID (h' p) = ID (h p)) →
  (λ p, ID (h' p)) <$> l = (λ p, ID (h p)) <$> l.
Proof.
  intros H. apply list_fmap_ext. intros i p Hp. apply H.
  by eapply list_elem_of_lookup_2.
Qed.

Lemma wf_init : wf init.
Proof.
  split; simpl; try (intros ? H; by apply elem_of_nil in H);
    try (intros ? ? H; by rewrite lookup_empty in H).
  - constructor.
  - apply lookup_empty.
Qed.

Lemma wf_handleJoin playerID now s : wf s → wf (handleJoin playerID now s).2.
Proof.
  intros [Hb Hnd Hm Hc Hpb Hpi Hk Hr]. unfold handleJoin.
  case_decide as Hid; [by split|]. simpl.
  assert (Hfresh : next_addr s ∉ pool s).
  { intros Hin. apply Hb in Hin. lia. }
  split; simpl.
  - intros p [Hp | Hp%list_elem_of_singleton]%elem_of_app; [apply Hb in Hp|]; lia.
  - apply NoDup_app. split_and!; [done| |apply NoDup_singleton].
    intros p Hp Hq%list_elem_of_singleton. by subst p.
  - intros p [Hp | Hp%list_elem_of_singleton]%elem_of_app.
    + rewrite fn_lookup_insert_ne; [by apply Hm | by intros <-].
    + subst p. by rewrite fn_lookup_insert.
  - intros p [Hp | Hp%list_elem_of_singleton]%elem_of_app.
    + rewrite fn_lookup_insert_ne; [by apply Hc | by intros <-].
    + subst p. by rewrite fn_lookup_insert.
  - intros k p. rewrite lookup_insert. case_decide.
    + intros [= <-]. lia.
    + intros Hp%Hpb. lia.
  - intros k p. rewrite lookup_insert. case_decide as Hkp.
    + intros [= <-]. by rewrite fn_lookup_insert.
    + intros Hp. rewrite fn_lookup_insert_ne; [by apply Hpi|].
      apply Hpb in Hp. lia.
  - by rewrite lookup_insert_ne.
  - done.
Qed.

Lemma wf_handleCancel playerID s : wf s → wf (handleCancel playerID s).2.
Proof.
  intros [Hb Hnd Hm Hc Hpb Hpi Hk Hr]. unfold handleCancel.
  case_decide as Hid; [by split|]. simpl.
  pose proof (pool_remove_sublist (heap s) playerID (pool s)) as Hsub.
  split; simpl.
  - intros p Hp. apply Hb. by eapply elem_of_sublist.
  - by eapply sublist_NoDup.
  - intros p Hp. apply Hm. by eapply elem_of_sublist.
  - intros p Hp. apply Hc. by eapply elem_of_sublist.
  - intros k p Hp%lookup_delete_Some. by eapply Hpb, Hp.
  - intros k p Hp%lookup_delete_Some. by eapply Hpi, Hp.
  - destruct (decide (playerID = "")); [done|]. by rewrite lookup_delete_ne.
  - done.
Qed.

(** ** The matching loop *)

Lemma matchPlayers_pair_eq roomID s p1 p2 rest :
  pool s = p1 :: p2 :: rest →
  p1 ≠ p2 →
  OpponentID (heap s p1) = Chan.make 1 →
  OpponentID (heap s p2) = Chan.make 1 →
  matchPlayers roomID s =
    Some {| heap := paired_heap roomID p1 p2 (heap s);
            next_addr := next_addr s; players := players s;
            rooms := <[roomID := [ID (heap s p1); ID (heap s p2)]]> (rooms s);
            pool := rest |}.
Proof.
  intros Hpool Hne Hc1 Hc2. unfold matchPlayers, paired_heap. rewrite Hpool.
  unfold heap_send. heap_simpl. simpl. rewrite Hc1. simpl.
  heap_simpl. simpl. rewrite Hc2. simpl. reflexivity.
Qed.

(** What one iteration of [matchPlayers] does to a pool of two or more
    entries whose first two are different structs with empty channels. *)
Lemma matchPlayers_pair roomID s p1 p2 rest :
  pool s = p1 :: p2 :: rest →
  p1 ≠ p2 →
  OpponentID (heap s p1) = Chan.make 1 →
  OpponentID (heap s p2) = Chan.make 1 →
  ∃ s', matchPlayers roomID s = Some s' ∧
    pool s' = rest ∧
    rooms s' = <[roomID := [ID (heap s p1); ID (heap s p2)]]> (rooms s) ∧
    players s' = players s ∧
    next_addr s' = next_addr s ∧
    heap s' p1 = paired roomID (ID (heap s p2)) (heap s p1) ∧
    heap s' p2 = paired roomID (ID (heap s p1)) (heap s p2) ∧
    ∀ x, x ≠ p1 → x ≠ p2 → heap s' x = heap s x.
Proof.
  intros Hpool Hne Hc1 Hc2. eexists. split.
  { by apply matchPlayers_pair_eq. }
  simpl. unfold paired_heap. split_and!; try done.
  - heap_simpl. unfold paired. simpl. done.
  - heap_simpl. unfold paired. simpl. done.
  - intros x Hx1 Hx2. by heap_simpl.
Qed.

Lemma matchPlayers_short roomID s :
  (length (pool s) < 2)%nat → matchPlayers roomID s = Some s.
Proof.
  unfold matchPlayers. destruct (pool s) as [|p1 [|p2 rest]]; simpl; [done..|lia].
Qed.

(** In a well-formed state the first two pool entries meet the
    conditions of [matchPlayers_pair]. *)
Lemma wf_front s p1 p2 rest :
  wf s → pool s = p1 :: p2 :: rest →
  p1 ≠ p2 ∧ (p1 ∉ rest) ∧ (p2 ∉ rest) ∧ NoDup rest ∧
  OpponentID (heap s p1) = Chan.make 1 ∧
  OpponentID (heap s p2) = Chan.make 1.
Proof.
  intros Hwf Hpool. pose proof (wf_pool_nodup s Hwf) as Hnd.
  pose proof (wf_pool_chan s Hwf) as Hc. rewrite Hpool in Hnd, Hc.
  apply NoDup_cons in Hnd as [H1 [H2 Hnd]%NoDup_cons].
  apply not_elem_of_cons in H1 as [H12 H1].
  split_and!; try done; apply Hc; set_solver.
Qed.

Lemma matchPlayers_total roomID s : wf s → is_Some (matchPlayers roomID s).
Proof.
  intros Hwf. destruct (pool s) as [|p1 [|p2 rest]] eqn:Hpool.
  - rewrite matchPlayers_short; [done | rewrite Hpool; simpl; lia].
  - rewrite matchPlayers_short; [done | rewrite Hpool; simpl; lia].
  - destruct (wf_front s p1 p2 rest Hwf Hpool) as (?&?&?&?&?&?).
    destruct (matchPlayers_pair roomID s p1 p2 rest) as (s'&->&_); done.
Qed.

Lemma wf_matchPlayers roomID s s' :
  wf s → matchPlayers roomID s = Some s' → wf s'.
Proof.
  intros Hwf Hs'. destruct (pool s) as [|p1 [|p2 rest]] eqn:Hpool.
  - rewrite matchPlayers_short in Hs'; [by simplify_eq | rewrite Hpool; simpl; lia].
  - rewrite matchPlayers_short in Hs'; [by simplify_eq | rewrite Hpool; simpl; lia].
  - destruct (wf_front s p1 p2 rest Hwf Hpool) as (H12&H1&H2&Hnd&Hc1&Hc2).
    destruct (matchPlayers_pair roomID s p1 p2 rest)
      as (s''&Heq&Hp&Hr&Hpl&Hn&Hh1&Hh2&Hh); try done.
    assert (s'' = s') as -> by congruence. clear Heq Hs'.
    destruct Hwf as [Hb _ Hm Hc Hpb Hpi Hk Hrl].
    assert (Hrest : ∀ p, p ∈ rest → p ∈ pool s ∧ heap s' p = heap s p).
    { intros p Hin. split; [rewrite Hpool; set_solver|].
      apply Hh; intros ->; done. }
    split.
    + rewrite Hp, Hn. intros p Hin. apply Hb, Hrest, Hin.
    + by rewrite Hp.
    + rewrite Hp. intros p [Hin ->]%Hrest. by apply Hm.
    + rewrite Hp. intros p [Hin ->]%Hrest. by apply Hc.
    + rewrite Hpl, Hn. done.
    + rewrite Hpl. intros k p Hkp%Hpi.
      destruct (decide (p = p1)) as [->|]; [by rewrite Hh1|].
      destruct (decide (p = p2)) as [->|]; [by rewrite Hh2|].
      by rewrite Hh.
    + by rewrite Hpl.
    + rewrite Hr. intros k r. rewrite lookup_insert. case_decide.
      * by intros [= <-].
      * apply Hrl.
Qed.

Lemma wf_status_select player s : wf s → wf (status_select player s).2.
Proof.
  intros Hwf. unfold status_select.
  destruct (Chan.try_recv _) as [[opponentID c]|] eqn:Hrecv; [|done].
  destruct Hwf as [Hb Hnd Hm Hc Hpb Hpi Hk Hrl]. simpl.
  assert (Hout : ∀ p, p ∈ pool s → player ≠ p).
  { intros p Hin <-. apply Hc in Hin. rewrite Hin in Hrecv. done. }
  split; simpl; try done.
  - intros p Hin. rewrite fn_lookup_alter_ne by by apply Hout. by apply Hm.
  - intros p Hin. rewrite fn_lookup_alter_ne by by apply Hout. by apply Hc.
  - intros k p Hp. rewrite ID_alter; [by eapply Hpi|done].
Qed.

Lemma wf_status_reap playerID s : wf s → wf (status_reap playerID s).
Proof.
  intros [Hb Hnd Hm Hc Hpb Hpi Hk Hrl]. split; simpl; try done.
  - intros k p Hp%lookup_delete_Some. by eapply Hpb, Hp.
  - intros k p Hp%lookup_delete_Some. by eapply Hpi, Hp.
  - by apply lookup_delete_None; right.
Qed.

(** The composed handler is its [select] followed, on a received value,
    by its [delete]. *)
Lemma handleStatus_state playerID s :
  (handleStatus playerID s).2 = s ∨
  ∃ player, (handleStatus playerID s).2
            = status_reap playerID (status_select player s).2.
Proof.
  unfold handleStatus. case_decide; [by left|].
  destruct (players s !! playerID) as [player|]; [|by left].
  destruct (status_select player s) as [[opponentID|] s1] eqn:Hsel; [|by left].
  right. exists player. by rewrite Hsel.
Qed.

Lemma wf_handleStatus playerID s : wf s → wf (handleStatus playerID s).2.
Proof.
  intros Hwf. destruct (handleStatus_state playerID s) as [->|[player ->]].
  - done.
  - by apply wf_status_reap, wf_status_select.
Qed.

(** ** The cleanup loop *)

Lemma cleanup_visit_pair pl rs room a b :
  cleanup_visit pl (Some rs) (room, [a; b]) =
    Some (if decide (is_Some (pl !! a) ∧ is_Some (pl !! b))
          then rs else delete room rs).
Proof.
  unfold cleanup_visit. simpl.
  destruct (decide (is_Some (pl !! a) ∧ is_Some (pl !! b))) as [[Ha Hb]|Hn].
  - by rewrite !bool_decide_eq_true_2.
  - destruct (decide (is_Some (pl !! a))) as [Ha|Ha].
    + rewrite (bool_decide_eq_true_2 _ Ha).
      rewrite bool_decide_eq_false_2; [done | tauto].
    + by rewrite (bool_decide_eq_false_2 _ Ha).
Qed.

Lemma length_two {A} (r : list A) : length r = 2%nat → ∃ a b, r = [a; b].
Proof. destruct r as [|a [|b [|c r]]]; simpl; intros; try lia. eauto. Qed.

(** The loop over a list of rooms that all have two members: it runs to
    the end, only ever deletes, deletes every visited room with a missing
    member and keeps a key all of whose visits find both members. *)
Lemma cleanup_fold pl (l : list (string * list string)) :
  ∀ rs : gmap string (list string),
  (∀ kv, kv ∈ l → length kv.2 = 2%nat) →
  ∃ rs', foldl (cleanup_visit pl) (Some rs) l = Some rs' ∧
    (∀ k, rs' !! k = None ∨ rs' !! k = rs !! k) ∧
    (∀ k a b, (k, [a; b]) ∈ l → pl !! a = None ∨ pl !! b = None →
              rs' !! k = None) ∧
    (∀ k, (∀ a b, (k, [a; b]) ∈ l → is_Some (pl !! a) ∧ is_Some (pl !! b)) →
          rs' !! k = rs !! k).
Proof.
  induction l as [|[room r] l IH]; intros rs Hlen.
  { exists rs. split_and!; [done|by right| |done].
    intros k a b Hin. by apply elem_of_nil in Hin. }
  destruct (length_two r) as (a0 & b0 & ->).
  { apply (Hlen (room, r)). by left. }
  cbn [foldl]. rewrite cleanup_visit_pair.
  set (rs1 := if decide _ then rs else delete room rs).
  destruct (IH rs1) as (rs' & Hrun & Hsub & Hdead & Hlive).
  { intros kv Hin. apply Hlen. by right. }
  assert (Hsub1 : ∀ k, rs1 !! k = None ∨ rs1 !! k = rs !! k).
  { intros k. unfold rs1. case_decide; [by right|].
    destruct (decide (room = k)) as [->|Hne].
    - left. apply lookup_delete_eq.
    - right. by apply lookup_delete_ne. }
  exists rs'. split_and!; [done| | |].
  - intros k. destruct (Hsub k) as [-> | ->]; [by left | apply Hsub1].
  - intros k a b [Heq|Hin]%elem_of_cons Hab; [|by eapply Hdead].
    assert (k = room ∧ a = a0 ∧ b = b0) as (-> & -> & ->) by by simplify_eq.
    destruct (Hsub room) as [-> | ->]; [done|].
    unfold rs1. rewrite decide_False; [apply lookup_delete_eq|].
    intros [[? Ha] [? Hb]]. destruct Hab; congruence.
  - intros k Hk. rewrite Hlive.
    + unfold rs1. case_decide as Hd; [done|].
      destruct (decide (room = k)) as [->|Hne]; [|by apply lookup_delete_ne].
      destruct Hd. apply Hk. by left.
    + intros a b Hin. apply Hk. by right.
Qed.

Lemma cleanupOldRooms_spec s :
  (∀ k r, rooms s !! k = Some r → length r = 2%nat) →
  ∃ rs', cleanupOldRooms s =
           Some {| heap := heap s; next_addr := next_addr s;
                   players := players s; rooms := rs'; pool := pool s |} ∧
    (∀ k, rs' !! k = None ∨ rs' !! k = rooms s !! k) ∧
    (∀ k a b, rooms s !! k = Some [a; b] →
              players s !! a = None ∨ players s !! b = None →
              rs' !! k = None) ∧
    (∀ k a b, rooms s !! k = Some [a; b] →
              is_Some (players s !! a) → is_Some (players s !! b) →
              rs' !! k = Some [a; b]).
Proof.
  intros Hlen.
  destruct (cleanup_fold (players s) (map_to_list (rooms s)) (rooms s))
    as (rs' & Hrun & Hsub & Hdead & Hlive).
  { intros [k r] Hin%elem_of_map_to_list. by eapply Hlen. }
  exists rs'. unfold cleanupOldRooms. rewrite Hrun. simpl.
  split_and!; [done|done| |].
  - intros k a b Hk. apply Hdead. by apply elem_of_map_to_list.
  - intros k a b Hk Ha Hb. rewrite Hlive; [done|].
    intros a' b' Hin%elem_of_map_to_list. by simplify_eq.
Qed.

Lemma cleanupOldRooms_total s : wf s → is_Some (cleanupOldRooms s).
Proof.
  intros Hwf. destruct (cleanupOldRooms_spec s) as (rs' & -> & _); [|done].
  apply Hwf.
Qed.

Lemma wf_cleanupOldRooms s s' : wf s → cleanupOldRooms s = Some s' → wf s'.
Proof.
  intros Hwf Hs'.
  destruct (cleanupOldRooms_spec s) as (rs' & Heq & Hsub & _); [apply Hwf|].
  rewrite Heq in Hs'. injection Hs' as <-.
  destruct Hwf as [Hb Hnd Hm Hc Hpb Hpi Hk Hrl]. split; simpl; try done.
  intros k r Hr. destruct (Hsub k) as [Hn|He]; [congruence|].
  apply (Hrl k). congruence.
Qed.

(** ** Reachable states are well formed, and no step gets stuck *)

Lemma wf_step e s s' : wf s → step e s = Some s' → wf s'.
Proof.
  intros Hwf. destruct e; simpl.
  - intros [= <-]. by apply wf_handleJoin.
  - intros [= <-]. by apply wf_handleCancel.
  - intros [= <-]. by apply wf_handleStatus.
  - intros [= <-]. by apply wf_status_select.
  - intros [= <-]. by apply wf_status_reap.
  - by intros [= <-].
  - by apply wf_matchPlayers.
  - by apply wf_cleanupOldRooms.
Qed.

Lemma step_total e s : wf s → is_Some (step e s).
Proof.
  intros Hwf. destruct e; simpl; try done.
  - by apply matchPlayers_total.
  - by apply cleanupOldRooms_total.
Qed.

Lemma wf_reach G s0 s : wf s0 → reach G s0 s → wf s.
Proof. intros H0. induction 1; [done | by eapply wf_step]. Qed.

Lemma wf_reachable s : reachable s → wf s.
Proof. apply wf_reach, wf_init. Qed.

Lemma reach_weaken (G : Event → State → Prop) s0 s :
  reach G s0 s → reach (λ _ _, True) s0 s.
Proof. induction 1; [constructor | by econstructor]. Qed.

Lemma run_total evs : ∀ s, wf s → ∃ s', run evs s = Some s' ∧ wf s'.
Proof.
  induction evs as [|e evs IH]; intros s Hwf; simpl; [by eauto|].
  destruct (step_total e s Hwf) as [s1 Hs1]. rewrite Hs1. simpl.
  apply IH. by eapply wf_step.
Qed.

Lemma run_reach evs : ∀ s0 s s', reach (λ _ _, True) s0 s →
  run evs s = Some s' → reach (λ _ _, True) s0 s'.
Proof.
  induction evs as [|e evs IH]; intros s0 s s' Hr; simpl.
  - by intros [= <-].
  - destruct (step e s) as [s1|] eqn:Hs1; [simpl|done].
    apply IH. by econstructor.
Qed.

Lemma run_reachable evs s : run evs init = Some s → reachable s.
Proof. apply run_reach. constructor. Qed.

(** ** The ids carried by the pool *)

Lemma pool_ids_handleJoin playerID now s :
  wf s → playerID ≠ "" →
  pool_ids (handleJoin playerID now s).2 = pool_ids s ++ [playerID].
Proof.
  intros Hwf Hid. unfold handleJoin, pool_ids. rewrite decide_False by done.
  simpl. rewrite fmap_app. simpl. heap_simpl. f_equal.
  apply list_fmap_ext. intros i p Hp%list_elem_of_lookup_2.
  apply (wf_pool_bound s Hwf) in Hp. rewrite fn_lookup_insert_ne; [done|lia].
Qed.

Lemma pool_ids_handleCancel playerID s :
  pool_ids (handleCancel playerID s).2 `sublist_of` pool_ids s.
Proof.
  unfold handleCancel, pool_ids. case_decide; simpl; [done|].
  apply pool_remove_ids_sublist.
Qed.

Lemma pool_ids_status_select player s :
  pool_ids (status_select player s).2 = pool_ids s.
Proof.
  unfold status_select, pool_ids.
  destruct (Chan.try_recv _) as [[opponentID c]|]; [|done]. simpl.
  apply list_fmap_ext. intros i p _. by apply ID_alter.
Qed.

Lemma pool_ids_handleStatus playerID s :
  pool_ids (handleStatus playerID s).2 = pool_ids s.
Proof.
  destruct (handleStatus_state playerID s) as [->|[player ->]]; [done|].
  apply pool_ids_status_select.
Qed.

Lemma pool_ids_matchPlayers roomID s s' :
  wf s → matchPlayers roomID s = Some s' →
  pool_ids s' `sublist_of` pool_ids s.
Proof.
  intros Hwf Hs'. destruct (pool s) as [|p1 [|p2 rest]] eqn:Hpool.
  - rewrite matchPlayers_short in Hs'; [by simplify_eq | rewrite Hpool; simpl; lia].
  - rewrite matchPlayers_short in Hs'; [by simplify_eq | rewrite Hpool; simpl; lia].
  - destruct (wf_front s p1 p2 rest Hwf Hpool) as (H12&H1&H2&Hnd&Hc1&Hc2).
    rewrite (matchPlayers_pair_eq roomID s p1 p2 rest) in Hs' by done.
    injection Hs' as <-. unfold pool_ids. simpl. rewrite Hpool.
    rewrite (fmap_ID_ext (heap s)).
    + rewrite !fmap_cons. by do 2 apply sublist_cons.
    + intros p Hp. unfold paired_heap. rewrite !ID_alter; done.
Qed.

Lemma pool_ids_cleanupOldRooms s s' :
  cleanupOldRooms s = Some s' → pool_ids s' = pool_ids s.
Proof.
  unfold cleanupOldRooms. destruct (foldl _ _ _); simpl; [|done].
  by intros [= <-].
Qed.

(** As long as nobody joins under an id that is still queued, the ids in
    the pool are pairwise different. *)
Lemma NoDup_pool_ids_step e s s' :
  wf s → no_rejoin e s → step e s = Some s' →
  NoDup (pool_ids s) → NoDup (pool_ids s').
Proof.
  intros Hwf Hg Hs' Hnd. destruct e; simpl in Hs'.
  - injection Hs' as <-. destruct (decide (playerID = "")) as [->|Hid].
    { unfold handleJoin. by rewrite decide_True. }
    rewrite pool_ids_handleJoin by done. apply NoDup_app.
    split_and!; [done| |apply NoDup_singleton].
    intros x Hx Hq%list_elem_of_singleton. subst x.
    by apply (Hg playerID now).
  - injection Hs' as <-. eapply sublist_NoDup; [done|apply pool_ids_handleCancel].
  - injection Hs' as <-. by rewrite pool_ids_handleStatus.
  - injection Hs' as <-. by rewrite pool_ids_status_select.
  - by injection Hs' as <-.
  - by injection Hs' as <-.
  - eapply sublist_NoDup; [done|by eapply pool_ids_matchPlayers].
  - by rewrite (pool_ids_cleanupOldRooms s s').
Qed.

Lemma NoDup_pool_ids_reach s :
  reach no_rejoin init s → NoDup (pool_ids s).
Proof.
  induction 1 as [|e s s' Hr IH Hg Hs']; [constructor|].
  eapply NoDup_pool_ids_step; [|done..].
  eapply wf_reach; [apply wf_init | by eapply reach_weaken].
Qed.

(** ** The registry entry of an id that nobody joins *)



(** ** The sample executions are executions *)

Lemma reachable_state_AB : reachable state_AB.
Proof. apply (run_reachable trace_AB). reflexivity. Qed.

Lemma reachable_state_AA : reachable state_AA.
Proof. apply (run_reachable trace_AA). reflexivity. Qed.

Lemma reachable_state_AA_cancel : reachable state_AA_cancel.
Proof. apply (run_reachable trace_AA_cancel). reflexivity. Qed.

Lemma reachable_state_AB_matched : reachable state_AB_matched.
Proof. apply (run_reachable trace_AB_matched). reflexivity. Qed.

Lemma reachable_state_A_polled : reachable state_A_polled.
Proof. apply (run_reachable trace_A_polled). reflexivity. Qed.

Lemma norejoin_state_AB : reach no_rejoin init state_AB.
Proof.
  apply (reach_step _ _ (EJoin "B" 2) (the (run [EJoin "A" 1] init))).
  - apply (reach_step _ _ (EJoin "A" 1) init); [constructor| |reflexivity].
    intros playerID now _. apply not_elem_of_nil.
  - intros playerID now [= <- <-]. vm_compute.
    by intros [=]%list_elem_of_singleton.
  - reflexivity.
Qed.

(** ** Rooms created by the matching loop *)

(** C1, as stated, fails: when the id ["A"] joins twice, the next tick of
    the matching loop creates a room whose two members are both ["A"]. *)
Lemma room_same_id_twice :
  reachable state_AA ∧
  ∃ s', matchPlayers "r" state_AA = Some s' ∧
        rooms state_AA !! "r" = None ∧
        rooms s' !! "r" = Some ["A"; "A"].
Proof.
  split; [apply reachable_state_AA|].
  exists (the (matchPlayers "r" state_AA)).
  split_and!; vm_compute; reflexivity.
Qed.

(** C1 (amended): in every reachable state a tick of the matching loop
    runs to its end; every room of the registry has exactly two member
    ids; with fewer than two pool entries no room is created; otherwise
    the new room holds the ids of the two front-most pool entries, which
    are two different [Player] structs, and the two ids are different
    whenever no id was joined while it still had an entry in the pool. *)
Theorem room_members roomID s :
  reachable s →
  ∃ s', matchPlayers roomID s = Some s' ∧
    (∀ k r, rooms s' !! k = Some r → length r = 2%nat) ∧
    ((length (pool s) < 2)%nat → rooms s' = rooms s) ∧
    ∀ p1 p2 rest, pool s = p1 :: p2 :: rest →
      rooms s' = <[roomID := [ID (heap s p1); ID (heap s p2)]]> (rooms s) ∧
      p1 ≠ p2 ∧
      (reach no_rejoin init s → ID (heap s p1) ≠ ID (heap s p2)).
Proof.
  intros Hr. pose proof (wf_reachable s Hr) as Hwf.
  destruct (matchPlayers_total roomID s Hwf) as [s' Hs'].
  exists s'. split_and!; [done| | |].
  - apply (wf_rooms_len s'). by eapply wf_matchPlayers.
  - intros Hlt. rewrite matchPlayers_short in Hs' by done. by injection Hs' as <-.
  - intros p1 p2 rest Hpool.
    destruct (wf_front s p1 p2 rest Hwf Hpool) as (H12&H1&H2&Hnd&Hc1&Hc2).
    rewrite (matchPlayers_pair_eq roomID s p1 p2 rest) in Hs' by done.
    injection Hs' as <-. simpl. split_and!; [done..|].
    intros Hnr%NoDup_pool_ids_reach. unfold pool_ids in Hnr.
    rewrite Hpool, !fmap_cons in Hnr.
    apply NoDup_cons in Hnr as [Hn _]. set_solver.
Qed.

Lemma room_members_witness :
  reachable state_AB ∧
  ∃ s', matchPlayers "r" state_AB = Some s' ∧
        rooms s' = <["r" := ["A"; "B"]]> (rooms state_AB) ∧
        "A" ≠ "B".
Proof.
  split; [apply reachable_state_AB|].
  destruct (room_members "r" state_AB reachable_state_AB)
    as (s' & Hs' & _ & _ & Hpair).
  destruct (Hpair 0%nat 1%nat [] eq_refl) as (Hrooms & _ & Hids).
  exists s'. split_and!; [exact Hs' | exact Hrooms | exact (Hids norejoin_state_AB)].
Defined.

(** ** One tick of the matching loop *)

(** C4: in a reachable state a tick runs to its end.  With fewer than two
    pool entries it changes nothing.  Otherwise the pool loses exactly its
    first two entries and keeps the others in order, the two structs get
    [Matched = true] and the same [roomID], each gets the other's id in
    its result channel, the room of the two ids is inserted under
    [roomID], and nothing else changes: one pairing per tick. *)
Theorem matchPlayers_tick roomID s :
  reachable s →
  ∃ s', matchPlayers roomID s = Some s' ∧
    ((length (pool s) < 2)%nat → s' = s) ∧
    ∀ p1 p2 rest, pool s = p1 :: p2 :: rest →
      pool s' = rest ∧
      pool s' = drop 2 (pool s) ∧
      rooms s' = <[roomID := [ID (heap s p1); ID (heap s p2)]]> (rooms s) ∧
      players s' = players s ∧
      heap s' p1 = paired roomID (ID (heap s p2)) (heap s p1) ∧
      heap s' p2 = paired roomID (ID (heap s p1)) (heap s p2) ∧
      (∀ x, x ≠ p1 → x ≠ p2 → heap s' x = heap s x) ∧
      (∀ x, x ∈ rest → Matched (heap s' x) = false).
Proof.
  intros Hr. pose proof (wf_reachable s Hr) as Hwf.
  destruct (matchPlayers_total roomID s Hwf) as [s' Hs'].
  exists s'. split_and!; [done| |].
  - intros Hlt. rewrite matchPlayers_short in Hs' by done. by injection Hs' as <-.
  - intros p1 p2 rest Hpool.
    destruct (wf_front s p1 p2 rest Hwf Hpool) as (H12&H1&H2&Hnd&Hc1&Hc2).
    destruct (matchPlayers_pair roomID s p1 p2 rest)
      as (s''&Heq&Hp&Hrm&Hpl&Hn&Hh1&Hh2&Hh); try done.
    assert (s'' = s') as -> by congruence.
    split_and!; try done.
    + by rewrite Hp, Hpool.
    + intros x Hx. rewrite Hh by (intros ->; done).
      apply (wf_pool_unmatched s Hwf). rewrite Hpool. set_solver.
Qed.

Lemma matchPlayers_tick_witness :
  reachable state_AB ∧
  ∃ s', matchPlayers "r" state_AB = Some s' ∧ pool s' = [] ∧
        heap s' 0%nat = paired "r" "B" (heap state_AB 0%nat) ∧
        heap s' 1%nat = paired "r" "A" (heap state_AB 1%nat).
Proof.
  split; [apply reachable_state_AB|].
  destruct (matchPlayers_tick "r" state_AB reachable_state_AB)
    as (s' & Hs' & _ & Hpair).
  destruct (Hpair 0%nat 1%nat [] eq_refl) as (Hp & _ & _ & _ & H1 & H2 & _).
  exists s'. split_and!; [exact Hs' | exact Hp | exact H1 | exact H2].
Defined.

(** ** The pool holds unmatched players only *)

(** C8: every sequence of joins, cancels, polls (whole, or split into
    their [select] and [delete]), stats requests, matching ticks and
    cleanup runs executes to its end from the initial state, and in the
    state it reaches no pool entry has [Matched = true]. *)
Theorem pool_never_matched evs :
  ∃ s, run evs init = Some s ∧ ∀ p, p ∈ pool s → Matched (heap s p) = false.
Proof.
  destruct (run_total evs init wf_init) as (s & Hs & Hwf).
  exists s. split; [done|]. apply (wf_pool_unmatched s Hwf).
Qed.

Lemma pool_never_matched_witness :
  ∃ s, run [EJoin "A" 1; EJoin "B" 2; EJoin "C" 3; EMatch "r"] init = Some s ∧
       ∀ p, p ∈ pool s → Matched (heap s p) = false.
Proof.
  exact (pool_never_matched [EJoin "A" 1; EJoin "B" 2; EJoin "C" 3; EMatch "r"]).
Defined.

(** ** The cleanup task *)

(** C2: in a reachable state a run of the cleanup loop of [main.go] ends,
    touches nothing but the room registry, creates no room, deletes every
    room with a member id that is missing from [players] and keeps every
    room whose two member ids are both in [players]. *)
Theorem cleanup_rooms s :
  reachable s →
  ∃ s', cleanupOldRooms s = Some s' ∧
    players s' = players s ∧ pool s' = pool s ∧ heap s' = heap s ∧
    (∀ room r, rooms s !! room = Some r → ∃ a b, r = [a; b]) ∧
    (∀ room, rooms s !! room = None → rooms s' !! room = None) ∧
    ∀ room a b, rooms s !! room = Some [a; b] →
      (players s !! a = None ∨ players s !! b = None →
       rooms s' !! room = None) ∧
      (is_Some (players s !! a) → is_Some (players s !! b) →
       rooms s' !! room = Some [a; b]).
Proof.
  intros Hwf%wf_reachable.
  destruct (cleanupOldRooms_spec s (wf_rooms_len s Hwf))
    as (rs' & Hrun & Hsub & Hdead & Hlive).
  eexists. split; [exact Hrun|]. simpl. split_and!; try done.
  - intros room r Hr. by eapply length_two, (wf_rooms_len s Hwf).
  - intros room Hn. destruct (Hsub room) as [?|He]; congruence.
  - intros room a b Hr. split; [by apply Hdead | by apply Hlive].
Qed.

Lemma cleanup_rooms_witness :
  reachable state_A_polled ∧
  rooms state_A_polled !! "r" = Some ["A"; "B"] ∧
  ∃ s', cleanupOldRooms state_A_polled = Some s' ∧ rooms s' !! "r" = None.
Proof.
  split; [apply reachable_state_A_polled|]. split; [reflexivity|].
  destruct (cleanup_rooms state_A_polled reachable_state_A_polled)
    as (s' & Hs' & _ & _ & _ & _ & _ & Hrooms).
  destruct (Hrooms "r" "A" "B" eq_refl) as [Hdead _].
  exists s'. split; [exact Hs' | exact (Hdead (or_introl eq_refl))].
Defined.

(** The loop of the second copy of the program keeps that room: there one
    missing member is not enough. *)
Example cleanup_both_keeps_half_reaped_room :
  (s' ← cleanupOldRooms_both state_A_polled; rooms s' !! "r")
    = Some ["A"; "B"].
Proof. vm_compute. reflexivity. Qed.

(** ** Polling *)

(** C3, as stated, fails for the empty id: it is not in the registry, yet
    the poll is refused with 400 "ID is required", not with 404. *)
Lemma status_empty_id_not_404 :
  reachable init ∧ players init !! "" = None ∧
  handleStatus "" init = (id_required, init) ∧
  id_required ≠ not_found.
Proof. split_and!; [constructor | reflexivity | reflexivity | discriminate]. Qed.

Lemma handleStatus_empty s : handleStatus "" s = (id_required, s).
Proof. reflexivity. Qed.

Lemma handleStatus_absent playerID s :
  playerID ≠ "" → players s !! playerID = None →
  handleStatus playerID s = (not_found, s).
Proof.
  intros Hid Hreg. unfold handleStatus.
  by rewrite decide_False, Hreg by done.
Qed.

Lemma handleStatus_waiting playerID s player :
  playerID ≠ "" → players s !! playerID = Some player →
  Chan.buf (OpponentID (heap s player)) = [] →
  handleStatus playerID s = (waiting_response, s).
Proof.
  intros Hid Hreg Hbuf. unfold handleStatus, status_select, Chan.try_recv.
  rewrite decide_False, Hreg, Hbuf by done. unfold status_reap. simpl.
  by heap_simpl.
Qed.

Lemma handleStatus_matched playerID s player opponentID q :
  playerID ≠ "" → players s !! playerID = Some player →
  Chan.buf (OpponentID (heap s player)) = opponentID :: q →
  handleStatus playerID s =
    (matched_response opponentID (RoomID (heap s player)),
     {| heap := alter (set_OpponentID
                         {| Chan.buf := q;
                            Chan.cap := Chan.cap (OpponentID (heap s player)) |})
                      player (heap s);
        next_addr := next_addr s;
        players := delete playerID (players s);
        rooms := rooms s;
        pool := pool s |}).
Proof.
  intros Hid Hreg Hbuf. unfold handleStatus, status_select, Chan.try_recv.
  rewrite decide_False, Hreg, Hbuf by done. unfold status_reap. simpl.
  by heap_simpl.
Qed.

(** C3 (amended): the empty id is refused with 400 and no change.  For a
    non-empty id the poll answers 404 exactly when the id is not in the
    registry, and then changes nothing; when the id is registered and its
    result channel holds a value, the answer is [matched] with that
    opponent id and the player's room id, the player is deleted from the
    registry, its channel loses the value, and the pool, the rooms and
    every other struct stay as they are; when the channel is empty the
    answer is [waiting] and the state is unchanged. *)
Theorem handleStatus_cases playerID s :
  (playerID = "" → handleStatus playerID s = (id_required, s)) ∧
  (playerID ≠ "" →
   ((handleStatus playerID s).1 = not_found ↔ players s !! playerID = None) ∧
   (players s !! playerID = None →
    handleStatus playerID s = (not_found, s)) ∧
   ∀ player, players s !! playerID = Some player →
     (∀ opponentID q,
        Chan.buf (OpponentID (heap s player)) = opponentID :: q →
        ∃ s', handleStatus playerID s =
                (matched_response opponentID (RoomID (heap s player)), s') ∧
          players s' = delete playerID (players s) ∧
          pool s' = pool s ∧ rooms s' = rooms s ∧
          Chan.buf (OpponentID (heap s' player)) = q ∧
          ∀ x, x ≠ player → heap s' x = heap s x) ∧
     (Chan.buf (OpponentID (heap s player)) = [] →
      handleStatus playerID s = (waiting_response, s))).
Proof.
  split; [intros ->; apply handleStatus_empty|].
  intros Hid. split_and!.
  - destruct (players s !! playerID) as [player|] eqn:Hreg.
    + destruct (Chan.buf (OpponentID (heap s player))) as [|v q] eqn:Hbuf.
      * rewrite (handleStatus_waiting _ _ player) by done.
        split; discriminate.
      * rewrite (handleStatus_matched _ _ player v q) by done.
        split; discriminate.
    + by rewrite handleStatus_absent.
  - by apply handleStatus_absent.
  - intros player Hreg. split.
    + intros opponentID q Hbuf. eexists.
      split; [by apply handleStatus_matched|]. simpl.
      split_and!; try done.
      * by heap_simpl.
      * intros x Hx. by heap_simpl.
    + by apply handleStatus_waiting.
Qed.

Lemma handleStatus_cases_witness :
  "A" ≠ "" ∧ players state_AB_matched !! "A" = Some 0%nat ∧
  ∃ s', handleStatus "A" state_AB_matched = (matched_response "B" "r", s') ∧
        players s' = delete "A" (players state_AB_matched).
Proof.
  split; [discriminate|]. split; [reflexivity|].
  destruct (handleStatus_cases "A" state_AB_matched) as [_ Hcases].
  destruct (Hcases ltac:(discriminate)) as (_ & _ & Hreg).
  destruct (Hreg 0%nat eq_refl) as [Hfull _].
  destruct (Hfull "B" [] eq_refl) as (s' & Hs' & Hpl & _).
  exists s'. split; [exact Hs' | exact Hpl].
Defined.






(** ** Joining *)

(** C6: a join with the empty id is refused with 400 and changes nothing.
    A join with a non-empty id answers [waiting] with the id, allocates a
    new [Player] with [Matched = false], an empty [RoomID] and an empty
    result channel of capacity one, binds the id to it in the registry
    (replacing any earlier binding) and appends it to the back of the
    pool; the rooms and all other structs are untouched. *)
Theorem handleJoin_cases playerID now s :
  (playerID = "" → handleJoin playerID now s = (id_required, s)) ∧
  (playerID ≠ "" →
   ∃ s', handleJoin playerID now s = (joined_response playerID, s') ∧
     players s' = <[playerID := next_addr s]> (players s) ∧
     players s' !! playerID = Some (next_addr s) ∧
     pool s' = pool s ++ [next_addr s] ∧
     heap s' (next_addr s) = new_Player playerID now ∧
     Matched (heap s' (next_addr s)) = false ∧
     RoomID (heap s' (next_addr s)) = "" ∧
     rooms s' = rooms s ∧
     next_addr s' = S (next_addr s) ∧
     ∀ x, x ≠ next_addr s → heap s' x = heap s x).
Proof.
  split; [intros ->; reflexivity|].
  intros Hid. unfold handleJoin. rewrite decide_False by done.
  eexists. split; [reflexivity|]. simpl. split_and!; try done.
  - apply lookup_insert_eq.
  - by heap_simpl.
  - by heap_simpl.
  - by heap_simpl.
  - intros x Hx. by heap_simpl.
Qed.

Lemma handleJoin_cases_witness :
  "B" ≠ "" ∧
  ∃ s', handleJoin "B" 2 (the (run [EJoin "A" 1] init))
          = (joined_response "B", s') ∧
        pool s' = [0%nat; 1%nat] ∧ heap s' 1%nat = new_Player "B" 2.
Proof.
  split; [discriminate|].
  destruct (handleJoin_cases "B" 2 (the (run [EJoin "A" 1] init))) as [_ Hjoin].
  destruct (Hjoin ltac:(discriminate)) as (s' & Hs' & _ & _ & Hp & Hh & _).
  exists s'. split_and!; [exact Hs' | exact Hp | exact Hh].
Defined.

(** ** Cancelling *)

Lemma handleCancel_noop playerID s :
  playerID ≠ "" → players s !! playerID = None → playerID ∉ pool_ids s →
  handleCancel playerID s = (cancelled_response, s).
Proof.
  intros Hid Hreg Hpool. unfold handleCancel. rewrite decide_False by done.
  rewrite delete_id by done. rewrite pool_remove_absent by done.
  by destruct s.
Qed.

(** C7, as stated, fails.  After ["A"] joined twice and was cancelled
    once, ["A"] is absent from the registry but its second entry is still
    in the pool, and cancelling ["A"] again removes that entry.  And the
    empty id, absent from the registry of the initial state, is answered
    with the error 400 instead of [cancelled]. *)
Lemma cancel_absent_id_not_noop :
  (reachable state_AA_cancel ∧
   players state_AA_cancel !! "A" = None ∧
   pool state_AA_cancel = [1%nat] ∧
   pool (handleCancel "A" state_AA_cancel).2 = []) ∧
  (players init !! "" = None ∧
   (handleCancel "" init).1 = id_required ∧
   id_required ≠ cancelled_response).
Proof.
  split; split_and!;
    [apply reachable_state_AA_cancel | reflexivity.. | discriminate].
Qed.

(** The cancel loop splits the pool at the first entry that carries the
    id and drops that entry. *)
Lemma pool_remove_split (h : addr → Player) x l :
  x ∈ (λ p, ID (h p)) <$> l →
  ∃ l1 p l2, l = l1 ++ p :: l2 ∧ ID (h p) = x ∧
    (∀ q, q ∈ l1 → ID (h q) ≠ x) ∧
    pool_remove h x l = l1 ++ l2.
Proof.
  induction l as [|p l IH]; simpl.
  - intros Hin. by apply elem_of_nil in Hin.
  - intros Hin. case_decide as Hp.
    + exists [], p, l. split_and!; [done..| |done].
      intros q Hq. by apply elem_of_nil in Hq.
    + apply elem_of_cons in Hin as [Heq|Hin]; [congruence|].
      destruct (IH Hin) as (l1 & p' & l2 & -> & Hp' & Hl1 & Hrem).
      exists (p :: l1), p', l2. split_and!; [done..| |by rewrite Hrem].
      intros q [->|Hq]%elem_of_cons; [done | by apply Hl1].
Qed.

Lemma filter_length_0 {A} (P : A → Prop) `{∀ x, Decision (P x)}
    (l : list A) x :
  length (filter P l) = 0%nat → x ∈ l → ¬ P x.
Proof.
  intros Hlen Hx HP.
  assert (Hin : x ∈ filter P l) by by apply list_elem_of_filter.
  destruct (filter P l); [by apply elem_of_nil in Hin | done].
Qed.

(** When at most one pool entry carries the id, none does after the
    loop. *)
Lemma pool_remove_at_most_one (h : addr → Player) x l :
  (length (filter (λ p, ID (h p) = x) l) ≤ 1)%nat →
  x ∉ (λ p, ID (h p)) <$> pool_remove h x l.
Proof.
  intros Hcount.
  destruct (decide (x ∈ (λ p, ID (h p)) <$> l)) as [Hin|Hout];
    [|by rewrite pool_remove_absent].
  destruct (pool_remove_split h x l Hin) as (l1 & p & l2 & -> & Hp & Hl1 & ->).
  rewrite filter_app, filter_cons_True, length_app in Hcount by done.
  simpl in Hcount.
  intros (q & Hq & [Hq1|Hq2]%elem_of_app)%list_elem_of_fmap.
  - by apply (Hl1 q).
  - apply (filter_length_0 (λ p, ID (h p) = x) l2 q); [lia|done..].
Qed.

(** C7 (amended): the empty id is refused with 400 and no change.  A
    cancel of a non-empty id answers [cancelled], deletes the id from the
    registry and removes the first pool entry that carries the id (the
    pool splits into the entries before it, none of which carries the id,
    that entry, and the entries after it, and the two parts are kept in
    order), leaving heap and rooms alone; so the id is gone from the pool
    when it had at most one entry there.  When the id is neither in the
    registry nor carried by a pool entry the cancel changes nothing at
    all, and doing it twice gives the same answer and the same state. *)
Theorem handleCancel_cases playerID s :
  (playerID = "" → handleCancel playerID s = (id_required, s)) ∧
  (playerID ≠ "" →
   (handleCancel playerID s).1 = cancelled_response ∧
   players (handleCancel playerID s).2 = delete playerID (players s) ∧
   players (handleCancel playerID s).2 !! playerID = None ∧
   pool (handleCancel playerID s).2
     = pool_remove (heap s) playerID (pool s) ∧
   heap (handleCancel playerID s).2 = heap s ∧
   rooms (handleCancel playerID s).2 = rooms s ∧
   (playerID ∈ pool_ids s →
    ∃ l1 p l2, pool s = l1 ++ p :: l2 ∧ ID (heap s p) = playerID ∧
      (∀ q, q ∈ l1 → ID (heap s q) ≠ playerID) ∧
      pool (handleCancel playerID s).2 = l1 ++ l2) ∧
   (playerID ∉ pool_ids s → pool (handleCancel playerID s).2 = pool s) ∧
   ((length (filter (λ p, ID (heap s p) = playerID) (pool s)) ≤ 1)%nat →
    playerID ∉ pool_ids (handleCancel playerID s).2) ∧
   (NoDup (pool_ids s) → playerID ∉ pool_ids (handleCancel playerID s).2) ∧
   (players s !! playerID = None → playerID ∉ pool_ids s →
    handleCancel playerID s = (cancelled_response, s) ∧
    handleCancel playerID (handleCancel playerID s).2
      = (cancelled_response, s))).
Proof.
  split; [intros ->; reflexivity|].
  intros Hid.
  assert (Hnoop : players s !! playerID = None → playerID ∉ pool_ids s →
    handleCancel playerID s = (cancelled_response, s) ∧
    handleCancel playerID (handleCancel playerID s).2
      = (cancelled_response, s)).
  { intros Hreg Hpool.
    rewrite (handleCancel_noop playerID s) by done. simpl.
    split; [done | by apply handleCancel_noop]. }
  revert Hnoop. unfold handleCancel. rewrite !decide_False by done. simpl.
  intros Hnoop. split_and!; try done.
  - apply lookup_delete_eq.
  - apply pool_remove_split.
  - apply pool_remove_absent.
  - apply pool_remove_at_most_one.
  - intros Hnd. by apply pool_remove_gone.
Qed.

Lemma handleCancel_cases_witness :
  "A" ≠ "" ∧
  pool_ids state_BBA = ["B"; "B"; "A"] ∧
  (length (filter (λ p, ID (heap state_BBA p) = "A") (pool state_BBA))
     ≤ 1)%nat ∧
  (handleCancel "A" state_BBA).1 = cancelled_response ∧
  players (handleCancel "A" state_BBA).2 !! "A" = None ∧
  ("A" ∉ pool_ids (handleCancel "A" state_BBA).2) ∧
  ∃ l1 p l2, pool state_BBA = l1 ++ p :: l2 ∧
    ID (heap state_BBA p) = "A" ∧
    pool (handleCancel "A" state_BBA).2 = l1 ++ l2.
Proof.
  assert (Hids : pool_ids state_BBA = ["B"; "B"; "A"])
    by (vm_compute; reflexivity).
  assert (Hcount :
    (length (filter (λ p, ID (heap state_BBA p) = "A") (pool state_BBA))
       ≤ 1)%nat) by (vm_compute; lia).
  assert (Hin : "A" ∈ pool_ids state_BBA).
  { rewrite Hids. do 2 right. by left. }
  split; [discriminate|]. split; [exact Hids|]. split; [exact Hcount|].
  destruct (handleCancel_cases "A" state_BBA) as [_ Hcancel].
  destruct (Hcancel ltac:(discriminate))
    as (Hresp & _ & Hgone & _ & _ & _ & Hsplit & _ & Hone & _).
  split; [exact Hresp|]. split; [exact Hgone|]. split; [exact (Hone Hcount)|].
  destruct (Hsplit Hin) as (l1 & p & l2 & Hp & Hid & _ & Hrem).
  exists l1, p, l2. split_and!; [exact Hp | exact Hid | exact Hrem].
Defined.

(** ** The stats snapshot *)

(** Copying a list of bindings with distinct keys into a map, first
    binding first. *)
Lemma copy_fold_lookup {V} (l : list (string * V)) :
  ∀ (acc : gmap string V) k, NoDup l.*1 →
  (∀ v, (k, v) ∈ l →
        foldl (λ acc kv, <[kv.1 := kv.2]> acc) acc l !! k = Some v) ∧
  (k ∉ l.*1 →
   foldl (λ acc kv, <[kv.1 := kv.2]> acc) acc l !! k = acc !! k).
Proof.
  induction l as [|[k0 v0] l IH]; intros acc k Hnd.
  { split; [intros v Hin; by apply elem_of_nil in Hin | done]. }
  rewrite fmap_cons in Hnd. apply NoDup_cons in Hnd as [Hk0 Hnd].
  destruct (IH (<[k0 := v0]> acc) k Hnd) as [IHin IHout].
  cbn [foldl fst snd]. split.
  - intros v [Heq|Hin]%elem_of_cons; [|by apply IHin].
    assert (k = k0 ∧ v = v0) as [-> ->] by by simplify_eq.
    destruct (IH (<[k0 := v0]> acc) k0 Hnd) as [_ ->]; [|done].
    apply lookup_insert_eq.
  - rewrite fmap_cons. intros [Hne Hout]%not_elem_of_cons.
    rewrite IHout by done. by apply lookup_insert_ne.
Qed.

Lemma roomsCopy_eq s : roomsCopy s = rooms s.
Proof.
  apply map_eq. intros k. unfold roomsCopy.
  destruct (copy_fold_lookup (map_to_list (rooms s)) ∅ k
              (NoDup_fst_map_to_list _)) as [Hin Hout].
  destruct (rooms s !! k) as [v|] eqn:Hk.
  - apply Hin. by apply elem_of_map_to_list.
  - rewrite Hout; [apply lookup_empty|].
    intros ([k' v] & -> & Hin')%list_elem_of_fmap.
    apply elem_of_map_to_list in Hin'. simpl in Hk. congruence.
Qed.

Lemma waiting_fold_elem (h : addr → Player) (l : list (string * addr)) :
  ∀ acc p,
  p ∈ foldl (λ acc kv, if negb (Matched (h kv.2)) then acc ++ [kv.2] else acc)
            acc l
  ↔ p ∈ acc ∨ ∃ k, (k, p) ∈ l ∧ Matched (h p) = false.
Proof.
  induction l as [|[k0 p0] l IH]; intros acc p; cbn [foldl].
  { split; [by left|]. intros [?|(k & Hin & _)]; [done|].
    by apply elem_of_nil in Hin. }
  rewrite IH. simpl. split.
  - intros [Hacc|(k & Hin & Hm)]; [|right; exists k; split; [by right|done]].
    destruct (Matched (h p0)) eqn:Hm0; simpl in Hacc; [by left|].
    apply elem_of_app in Hacc as [?|Hp%list_elem_of_singleton]; [by left|].
    subst p. right. exists k0. split; [by left|done].
  - intros [Hacc|(k & [Heq|Hin]%elem_of_cons & Hm)].
    + left. destruct (Matched (h p0)); simpl; [done|].
      apply elem_of_app. by left.
    + assert (k = k0 ∧ p = p0) as [-> ->] by by simplify_eq.
      left. rewrite Hm. simpl.
      apply elem_of_app. right. by apply list_elem_of_singleton.
    + right. by exists k.
Qed.

Lemma waitingPlayers_elem s p :
  p ∈ waitingPlayers s ↔
  ∃ k, players s !! k = Some p ∧ Matched (heap s p) = false.
Proof.
  unfold waitingPlayers. rewrite waiting_fold_elem. split.
  - intros [Hnil|(k & Hin%elem_of_map_to_list & Hm)]; [|by eauto].
    by apply elem_of_nil in Hnil.
  - intros (k & Hk%elem_of_map_to_list & Hm). right. by exists k.
Qed.

(** C9: the stats handler hands back the state it was given, so a stats
    request is a step that changes nothing, and the data it computes are
    the four counters, the registered players that are not matched, and a
    copy of the room registry equal to the registry itself. *)
Theorem statsHandler_readonly s :
  (statsHandler s).2 = s ∧
  step EStats s = Some s ∧
  Stats (statsHandler s).1 = getStats s ∧
  TotalPlayers (getStats s) = Z.of_nat (size (players s)) ∧
  WaitingPlayers (getStats s) = Z.of_nat (length (pool s)) ∧
  MatchedPlayers (getStats s)
    = int_sub (TotalPlayers (getStats s)) (WaitingPlayers (getStats s)) ∧
  ActiveRooms (getStats s) = Z.of_nat (size (rooms s)) ∧
  ActiveRoomsList (statsHandler s).1 = rooms s ∧
  ∀ p, p ∈ WaitingPlayersList (statsHandler s).1 ↔
       ∃ k, players s !! k = Some p ∧ Matched (heap s p) = false.
Proof.
  split_and!; try reflexivity.
  - apply roomsCopy_eq.
  - apply waitingPlayers_elem.
Qed.

(** ** The matched-players counter *)


(** C10: the counter is the wrapped difference of the two lengths, with
    no clamp at zero, also in the data of the stats handler; and after a
    non-empty id joined twice from the initial state, with nothing in
    between, the registry has one entry, the pool has two, and the counter
    is -1. *)
Theorem matchedPlayers_negative playerID now1 now2 :
  playerID ≠ "" →
  (∀ s, MatchedPlayers (getStats s)
          = int_wrap (Z.of_nat (size (players s)) - Z.of_nat (length (pool s)))
        ∧ MatchedPlayers (Stats (statsHandler s).1)
          = MatchedPlayers (getStats s)) ∧
  ∃ s, run [EJoin playerID now1; EJoin playerID now2] init = Some s ∧
       reachable s ∧
       size (players s) = 1%nat ∧ length (pool s) = 2%nat ∧
       MatchedPlayers (getStats s) = -1.
Proof.
  intros Hid. split; [done|].
  assert (Hrun : run [EJoin playerID now1; EJoin playerID now2] init
    = Some (handleJoin playerID now2 (handleJoin playerID now1 init).2).2)
    by reflexivity.
  eexists. split; [exact Hrun|].
  split; [by eapply run_reachable|].
  unfold getStats, handleJoin. rewrite !decide_False by done. simpl.
  rewrite insert_insert_eq.
  rewrite map_size_insert_None by apply lookup_empty.
  rewrite map_size_empty. split_and!; [done..|].
  unfold len_map. rewrite map_size_insert_None by apply lookup_empty.
  rewrite map_size_empty. reflexivity.
Qed.

Lemma matchedPlayers_negative_witness :
  "A" ≠ "" ∧
  ∃ s, run trace_AA init = Some s ∧ MatchedPlayers (getStats s) = -1.
Proof.
  split; [discriminate|].
  destruct (matchedPlayers_negative "A" 1 2 ltac:(discriminate))
    as (_ & s & Hs & _ & _ & _ & Hm).
  exists s. split; [exact Hs | exact Hm].
Defined.

(** * Further properties of the handlers and loops *)

(** ** Arrival order *)

Lemma join_events_pool js : ∀ s, wf s →
  ∃ s', run (join_events js) s = Some s' ∧ wf s' ∧
    pool_ids s' = pool_ids s ++ accepted_ids js ∧
    length (pool s') = (length (pool s) + length (accepted_ids js))%nat ∧
    rooms s' = rooms s.
Proof.
  induction js as [|[playerID now] js IH]; intros s Hwf.
  { exists s. unfold accepted_ids. simpl. rewrite app_nil_r.
    split_and!; [done..|lia|done]. }
  destruct (IH (handleJoin playerID now s).2 (wf_handleJoin _ _ _ Hwf))
    as (s' & Hrun & Hwf' & Hids & Hlen & Hrooms).
  exists s'. split; [exact Hrun|]. split; [done|].
  unfold accepted_ids in *. cbn [fmap list_fmap fst].
  destruct (decide (playerID = "")) as [->|Hid].
  - rewrite filter_cons_False by (intros H; by apply H).
    revert Hids Hlen Hrooms. unfold handleJoin. rewrite decide_True by done.
    done.
  - rewrite filter_cons_True by done.
    rewrite pool_ids_handleJoin in Hids by done.
    rewrite <- (assoc_L (++)) in Hids. split; [exact Hids|].
    revert Hlen Hrooms. unfold handleJoin. rewrite decide_False by done.
    simpl. rewrite length_app. simpl. intros -> ->. split; [lia|done].
Qed.

(** X1: a batch of joins runs to its end and queues its players in arrival
    order: the ids carried by the pool afterwards are the ids it carried
    before, followed by the non-empty ids of the batch in the order of the
    requests (requests with the empty id leave no trace); no room is
    created. *)
Theorem joins_queue_in_order js s :
  reachable s →
  ∃ s', run (join_events js) s = Some s' ∧
    pool_ids s' = pool_ids s ++ accepted_ids js ∧
    length (pool s') = (length (pool s) + length (accepted_ids js))%nat ∧
    rooms s' = rooms s.
Proof.
  intros Hwf%wf_reachable.
  destruct (join_events_pool js s Hwf) as (s' & Hrun & _ & Hrest).
  by exists s'.
Qed.

Lemma joins_queue_in_order_witness :
  reachable state_AB ∧
  ∃ s', run (join_events [("C", 3); ("", 4); ("A", 5)]) state_AB = Some s' ∧
        pool_ids s' = ["A"; "B"; "C"; "A"].
Proof.
  split; [apply reachable_state_AB|].
  destruct (joins_queue_in_order [("C", 3); ("", 4); ("A", 5)] state_AB
              reachable_state_AB) as (s' & Hrun & Hids & _).
  exists s'. split; [exact Hrun | exact Hids].
Defined.

(** ** Draining the pool in pairs *)

Lemma matchPlayers_rooms_frame roomID s s' r :
  matchPlayers roomID s = Some s' → r ≠ roomID →
  rooms s' !! r = rooms s !! r.
Proof.
  unfold matchPlayers.
  destruct (pool s) as [|p1 [|p2 rest]]; try by intros [= <-].
  destruct (heap_send _ _ _) as [h1|]; simpl; [|done].
  destruct (heap_send _ _ _) as [h2|]; simpl; [|done].
  intros [= <-] Hne. simpl. by rewrite lookup_insert_ne.
Qed.

Lemma match_events_rooms_frame roomIDs : ∀ s s' r,
  run (match_events roomIDs) s = Some s' → r ∉ roomIDs →
  rooms s' !! r = rooms s !! r.
Proof.
  induction roomIDs as [|r0 roomIDs IH]; intros s s' r; simpl.
  { by intros [= <-]. }
  destruct (matchPlayers r0 s) as [s1|] eqn:Hs1; simpl; [|done].
  intros Hrun [Hne Hout]%not_elem_of_cons.
  rewrite (IH s1 s' r) by done. by eapply matchPlayers_rooms_frame.
Qed.

Lemma matchPlayers_front roomID s p1 p2 rest :
  wf s → pool s = p1 :: p2 :: rest →
  ∃ s', matchPlayers roomID s = Some s' ∧ wf s' ∧
    pool s' = rest ∧
    pool_ids s' = drop 2 (pool_ids s) ∧
    rooms s' = <[roomID := [ID (heap s p1); ID (heap s p2)]]> (rooms s).
Proof.
  intros Hwf Hpool.
  destruct (wf_front s p1 p2 rest Hwf Hpool) as (H12&H1&H2&Hnd&Hc1&Hc2).
  pose proof (matchPlayers_pair_eq roomID s p1 p2 rest Hpool H12 Hc1 Hc2)
    as Heq.
  eexists. split; [exact Heq|]. split; [by eapply wf_matchPlayers|].
  simpl. split_and!; [done| |done].
  unfold pool_ids. simpl. rewrite Hpool. simpl.
  apply fmap_ID_ext. intros p _. unfold paired_heap. by rewrite !ID_alter.
Qed.

Lemma match_events_pairs roomIDs : ∀ s,
  wf s → NoDup roomIDs → (2 * length roomIDs ≤ length (pool s))%nat →
  ∃ s', run (match_events roomIDs) s = Some s' ∧ wf s' ∧
    pool s' = drop (2 * length roomIDs) (pool s) ∧
    pool_ids s' = drop (2 * length roomIDs) (pool_ids s) ∧
    ∀ i r a b, roomIDs !! i = Some r →
      pool_ids s !! (2 * i)%nat = Some a →
      pool_ids s !! (2 * i + 1)%nat = Some b →
      rooms s' !! r = Some [a; b].
Proof.
  induction roomIDs as [|r0 roomIDs IH]; intros s Hwf Hnd Hlen.
  { exists s. split_and!; done. }
  apply NoDup_cons in Hnd as [Hr0 Hnd]. simpl in Hlen.
  destruct (pool s) as [|p1 [|p2 rest]] eqn:Hpool; simpl in Hlen; try lia.
  destruct (matchPlayers_front r0 s p1 p2 rest Hwf Hpool)
    as (s1 & Hs1 & Hwf1 & Hp1 & Hids1 & Hrooms1).
  destruct (IH s1 Hwf1 Hnd) as (s' & Hrun & Hwf' & Hp' & Hids' & Hpairs).
  { rewrite Hp1. lia. }
  exists s'. split; [simpl; by rewrite Hs1|]. split; [done|].
  replace (2 * length (r0 :: roomIDs))%nat
    with (2 + 2 * length roomIDs)%nat by (simpl; lia).
  split_and!.
  - by rewrite Hp', Hp1.
  - by rewrite Hids', Hids1, drop_drop.
  - intros [|i] r a b Hi Ha Hb.
    + injection Hi as <-.
      rewrite (match_events_rooms_frame roomIDs s1 s' r0) by done.
      rewrite Hrooms1, lookup_insert_eq. unfold pool_ids in Ha, Hb.
      rewrite Hpool in Ha, Hb. simpl in Ha, Hb. congruence.
    + apply (Hpairs i r a b Hi); rewrite Hids1, lookup_drop.
      * by replace (2 + 2 * i)%nat with (2 * S i)%nat by lia.
      * by replace (2 + (2 * i + 1))%nat with (2 * S i + 1)%nat by lia.
Qed.

(** X2: strict FIFO pairing.  From a reachable state whose pool has at
    least [2n] entries, [n] iterations of the matching loop with pairwise
    different room ids run to their end, remove exactly the first [2n]
    pool entries, and the room of the [i]-th iteration holds the ids of
    the pool entries [2i] and [2i+1], in that order. *)
Theorem matching_is_fifo roomIDs s :
  reachable s → NoDup roomIDs →
  (2 * length roomIDs ≤ length (pool s))%nat →
  ∃ s', run (match_events roomIDs) s = Some s' ∧
    pool s' = drop (2 * length roomIDs) (pool s) ∧
    pool_ids s' = drop (2 * length roomIDs) (pool_ids s) ∧
    ∀ i r a b, roomIDs !! i = Some r →
      pool_ids s !! (2 * i)%nat = Some a →
      pool_ids s !! (2 * i + 1)%nat = Some b →
      rooms s' !! r = Some [a; b].
Proof.
  intros Hwf%wf_reachable Hnd Hlen.
  destruct (match_events_pairs roomIDs s Hwf Hnd Hlen)
    as (s' & Hrun & _ & Hp & Hids & Hpairs).
  by exists s'.
Qed.

Lemma reachable_state_five : reachable state_five.
Proof. apply (run_reachable trace_five). vm_compute. reflexivity. Qed.

Lemma matching_is_fifo_witness :
  reachable state_five ∧ NoDup ["r1"; "r2"] ∧
  ∃ s', run (match_events ["r1"; "r2"]) state_five = Some s' ∧
        pool_ids s' = ["E"] ∧
        rooms s' !! "r1" = Some ["A"; "B"] ∧
        rooms s' !! "r2" = Some ["C"; "D"].
Proof.
  assert (Hnd : NoDup ["r1"; "r2"]).
  { apply NoDup_cons. split; [|apply NoDup_singleton].
    by intros [=]%list_elem_of_singleton. }
  assert (Hlen : (2 * length ["r1"; "r2"] ≤ length (pool state_five))%nat).
  { vm_compute. lia. }
  assert (Hids5 : pool_ids state_five = ["A"; "B"; "C"; "D"; "E"]).
  { vm_compute. reflexivity. }
  split; [apply reachable_state_five|]. split; [exact Hnd|].
  destruct (matching_is_fifo ["r1"; "r2"] state_five reachable_state_five
              Hnd Hlen) as (s' & Hrun & Hp & Hids & Hpairs).
  rewrite Hids5 in Hids, Hpairs.
  exists s'. split; [exact Hrun|]. split_and!.
  - exact Hids.
  - exact (Hpairs 0%nat "r1" "A" "B" eq_refl eq_refl eq_refl).
  - exact (Hpairs 1%nat "r2" "C" "D" eq_refl eq_refl eq_refl).
Defined.

(** ** Result channels, ids and the waiting list *)

Lemma Matched_alter_OpponentID (h : addr → Player) c a x :
  Matched (alter (set_OpponentID c) a h x) = Matched (h x).
Proof.
  destruct (decide (a = x)) as [->|Hne].
  - by rewrite fn_lookup_alter.
  - by rewrite fn_lookup_alter_ne.
Qed.

Lemma RoomID_alter_OpponentID (h : addr → Player) c a x :
  RoomID (alter (set_OpponentID c) a h x) = RoomID (h x).
Proof.
  destruct (decide (a = x)) as [->|Hne].
  - by rewrite fn_lookup_alter.
  - by rewrite fn_lookup_alter_ne.
Qed.

(** The cancel loop keeps every entry that carries another id. *)
Lemma pool_remove_keeps (h : addr → Player) x l p :
  p ∈ l → ID (h p) ≠ x → p ∈ pool_remove h x l.
Proof.
  induction l as [|q l IH]; simpl; [done|].
  intros [->|Hin]%elem_of_cons Hne.
  - rewrite decide_False by done. by left.
  - case_decide; [done|]. right. by apply IH.
Qed.

Lemma inv_init : inv init.
Proof.
  split; simpl; try done.
  - intros a. lia.
  - intros p Hp. by apply elem_of_nil in Hp.
Qed.

Lemma inv_handleJoin playerID now s :
  wf s → inv s → inv (handleJoin playerID now s).2.
Proof.
  intros Hwf [Hbl Hbd Hpi Hri Hq]. unfold handleJoin.
  case_decide as Hid; [by split|]. simpl.
  assert (Hold : ∀ p, p ∈ pool s → p ≠ next_addr s).
  { intros p Hp%(wf_pool_bound s Hwf). lia. }
  split; simpl.
  - intros a. destruct (decide (a = next_addr s)) as [->|Hne].
    + by rewrite fn_lookup_insert.
    + rewrite fn_lookup_insert_ne by done. apply Hbl.
  - intros a. destruct (decide (a = next_addr s)) as [->|Hne].
    + rewrite fn_lookup_insert. simpl. lia.
    + rewrite fn_lookup_insert_ne by done. apply Hbd.
  - intros p [Hp|Hp%list_elem_of_singleton]%elem_of_app.
    + rewrite fn_lookup_insert_ne; [by apply Hpi|]. intros Heq.
      by apply (Hold p).
    + subst p. by rewrite fn_lookup_insert.
  - done.
  - intros k p. rewrite lookup_insert. case_decide.
    + intros [= <-] _. apply elem_of_app. right. by apply list_elem_of_singleton.
    + intros Hk. pose proof (wf_players_bound s Hwf k p Hk).
      rewrite fn_lookup_insert_ne by lia. intros Hm.
      apply elem_of_app. left. by eapply Hq.
Qed.

Lemma inv_handleCancel playerID s :
  wf s → inv s → inv (handleCancel playerID s).2.
Proof.
  intros Hwf [Hbl Hbd Hpi Hri Hq]. unfold handleCancel.
  case_decide as Hid; [by split|]. simpl. split; simpl; try done.
  - intros p Hp. apply Hpi. eapply elem_of_sublist; [done|].
    apply pool_remove_sublist.
  - intros k p [Hne Hk]%lookup_delete_Some Hm.
    apply pool_remove_keeps; [by eapply Hq|].
    rewrite (wf_players_id s Hwf k p Hk). done.
Qed.

Lemma inv_status_select player s : inv s → inv (status_select player s).2.
Proof.
  intros [Hbl Hbd Hpi Hri Hq]. unfold status_select, Chan.try_recv.
  destruct (Chan.buf (OpponentID (heap s player))) as [|v q] eqn:Hbuf; [done|].
  simpl. split; simpl; try done.
  - intros a. rewrite Matched_alter_OpponentID, RoomID_alter_OpponentID.
    intros Hm. destruct (decide (player = a)) as [->|Hne].
    + destruct (Hbl a Hm) as [Hnil _]. congruence.
    + rewrite fn_lookup_alter_ne by done. by apply Hbl.
  - intros a. destruct (decide (player = a)) as [->|Hne].
    + rewrite fn_lookup_alter. simpl. specialize (Hbd a).
      rewrite Hbuf in Hbd. simpl in Hbd. lia.
    + rewrite fn_lookup_alter_ne by done. apply Hbd.
  - intros p Hp. rewrite ID_alter by done. by apply Hpi.
  - intros k p Hk. rewrite Matched_alter_OpponentID. by apply (Hq k).
Qed.

Lemma inv_status_reap playerID s : inv s → inv (status_reap playerID s).
Proof.
  intros [Hbl Hbd Hpi Hri Hq]. split; simpl; try done.
  intros k p [_ Hk]%lookup_delete_Some. by apply (Hq k).
Qed.

Lemma inv_matchPlayers roomID s s' :
  wf s → inv s → matchPlayers roomID s = Some s' → inv s'.
Proof.
  intros Hwf Hinv Hs'. destruct (pool s) as [|p1 [|p2 rest]] eqn:Hpool.
  - rewrite matchPlayers_short in Hs'; [by simplify_eq | rewrite Hpool; simpl; lia].
  - rewrite matchPlayers_short in Hs'; [by simplify_eq | rewrite Hpool; simpl; lia].
  - destruct (wf_front s p1 p2 rest Hwf Hpool) as (H12&H1&H2&Hnd&Hc1&Hc2).
    destruct (matchPlayers_pair roomID s p1 p2 rest)
      as (s''&Heq&Hp&Hr&Hpl&Hn&Hh1&Hh2&Hh); try done.
    assert (s'' = s') as -> by congruence. clear Heq Hs'.
    destruct Hinv as [Hbl Hbd Hpi Hri Hq].
    assert (Hin1 : p1 ∈ pool s) by (rewrite Hpool; by left).
    assert (Hin2 : p2 ∈ pool s) by (rewrite Hpool; right; by left).
    split.
    + intros a. destruct (decide (a = p1)) as [->|Hn1]; [by rewrite Hh1|].
      destruct (decide (a = p2)) as [->|Hn2]; [by rewrite Hh2|].
      rewrite Hh by done. apply Hbl.
    + intros a. destruct (decide (a = p1)) as [->|Hn1]; [by rewrite Hh1|].
      destruct (decide (a = p2)) as [->|Hn2]; [by rewrite Hh2|].
      rewrite Hh by done. apply Hbd.
    + rewrite Hp. intros p Hin. rewrite Hh by (intros ->; done).
      apply Hpi. rewrite Hpool. by do 2 right.
    + rewrite Hr. intros k r x. rewrite lookup_insert. case_decide.
      * intros [= <-] Hx.
        apply elem_of_cons in Hx as [->|Hx]; [by apply Hpi|].
        apply list_elem_of_singleton in Hx as ->. by apply Hpi.
      * apply Hri.
    + rewrite Hpl, Hp. intros k p Hk.
      destruct (decide (p = p1)) as [->|Hn1]; [by rewrite Hh1|].
      destruct (decide (p = p2)) as [->|Hn2]; [by rewrite Hh2|].
      rewrite Hh by done. intros Hm. pose proof (Hq k p Hk Hm) as Hin.
      rewrite Hpool in Hin.
      apply elem_of_cons in Hin as [?|Hin]; [done|].
      by apply elem_of_cons in Hin as [?|Hin].
Qed.

Lemma inv_cleanupOldRooms s s' :
  wf s → inv s → cleanupOldRooms s = Some s' → inv s'.
Proof.
  intros Hwf [Hbl Hbd Hpi Hri Hq] Hs'.
  destruct (cleanupOldRooms_spec s (wf_rooms_len s Hwf))
    as (rs' & Heq & Hsub & _).
  rewrite Heq in Hs'. injection Hs' as <-. split; simpl; try done.
  intros k r x Hk. destruct (Hsub k) as [?|He]; [congruence|].
  apply (Hri k). congruence.
Qed.

Lemma inv_step e s s' : wf s → inv s → step e s = Some s' → inv s'.
Proof.
  intros Hwf Hinv. destruct e; simpl.
  - intros [= <-]. by apply inv_handleJoin.
  - intros [= <-]. by apply inv_handleCancel.
  - intros [= <-].
    destruct (handleStatus_state playerID s) as [->|[player ->]]; [done|].
    by apply inv_status_reap, inv_status_select.
  - intros [= <-]. by apply inv_status_select.
  - intros [= <-]. by apply inv_status_reap.
  - by intros [= <-].
  - by apply inv_matchPlayers.
  - by apply inv_cleanupOldRooms.
Qed.

Lemma inv_reachable s : reachable s → inv s.
Proof.
  unfold reachable. induction 1 as [|e s s' Hr IH _ Hs']; [apply inv_init|].
  eapply inv_step; [|done..]. eapply wf_reach; [apply wf_init | exact Hr].
Qed.

Lemma registry_key_is_struct_id_aux s k p :
  reachable s → players s !! k = Some p →
  k ≠ "" ∧ ID (heap s p) = k ∧ (p < next_addr s)%nat.
Proof.
  intros Hwf%wf_reachable Hk. split_and!.
  - intros ->. rewrite (wf_players_key s Hwf) in Hk. done.
  - by apply (wf_players_id s Hwf).
  - by apply (wf_players_bound s Hwf k).
Qed.

(** X3: the registry stays consistent with the structs it points to: in
    every reachable state each key of [players] is the [ID] field of the
    struct it is bound to, that struct has been allocated by a join, and
    the empty id is never a key. *)
Theorem registry_key_is_struct_id s k p :
  reachable s → players s !! k = Some p →
  ID (heap s p) = k ∧ k ≠ "" ∧ (p < next_addr s)%nat.
Proof.
  intros Hr Hk.
  destruct (registry_key_is_struct_id_aux s k p Hr Hk) as (?&?&?). done.
Qed.

Lemma registry_key_is_struct_id_witness :
  reachable state_AB ∧ players state_AB !! "B" = Some 1%nat ∧
  ID (heap state_AB 1%nat) = "B" ∧ "B" ≠ "" ∧ (1 < next_addr state_AB)%nat.
Proof.
  split; [apply reachable_state_AB|]. split; [reflexivity|].
  exact (registry_key_is_struct_id state_AB "B" 1%nat
           reachable_state_AB eq_refl).
Defined.

(** X4: a registered player that has not been paired always polls
    [waiting], and the poll changes nothing: the result channel of an
    unmatched struct is empty in every reachable state. *)
Theorem unmatched_player_polls_waiting playerID s p :
  reachable s → players s !! playerID = Some p →
  Matched (heap s p) = false →
  handleStatus playerID s = (waiting_response, s).
Proof.
  intros Hr Hk Hm.
  destruct (registry_key_is_struct_id_aux s playerID p Hr Hk) as [Hid _].
  apply (handleStatus_waiting playerID s p); [done..|].
  by apply (inv_blank s (inv_reachable s Hr)).
Qed.

Lemma unmatched_player_polls_waiting_witness :
  reachable state_AB ∧ players state_AB !! "A" = Some 0%nat ∧
  Matched (heap state_AB 0%nat) = false ∧
  handleStatus "A" state_AB = (waiting_response, state_AB).
Proof.
  split; [apply reachable_state_AB|]. split; [reflexivity|].
  split; [reflexivity|].
  exact (unmatched_player_polls_waiting "A" state_AB 0%nat
           reachable_state_AB eq_refl eq_refl).
Defined.

(** X5: a result channel never holds more than one value, and it holds
    one only for a struct that the matching loop has marked [Matched];
    an unmatched struct has an empty [RoomID]. *)
Theorem result_channel_single_use s a :
  reachable s →
  (length (Chan.buf (OpponentID (heap s a))) ≤ 1)%nat ∧
  (Chan.buf (OpponentID (heap s a)) ≠ [] → Matched (heap s a) = true) ∧
  (Matched (heap s a) = false → RoomID (heap s a) = "").
Proof.
  intros Hinv%inv_reachable. split_and!.
  - apply (inv_chan_bound s Hinv).
  - intros Hne. destruct (Matched (heap s a)) eqn:Hm; [done|].
    by destruct (inv_blank s Hinv a Hm).
  - intros Hm. by destruct (inv_blank s Hinv a Hm).
Qed.

Lemma result_channel_single_use_witness :
  reachable state_AB_matched ∧
  Chan.buf (OpponentID (heap state_AB_matched 0%nat)) = ["B"] ∧
  Matched (heap state_AB_matched 0%nat) = true.
Proof.
  split; [apply reachable_state_AB_matched|]. split; [reflexivity|].
  destruct (result_channel_single_use state_AB_matched 0%nat
              reachable_state_AB_matched) as (_ & Hm & _).
  apply Hm. discriminate.
Defined.

(** X6: the empty id never enters the waiting pool or a room: in every
    reachable state every pool entry carries a non-empty id and every
    member of every room is a non-empty id. *)
Theorem empty_id_never_queued_or_paired s :
  reachable s →
  (∀ p, p ∈ pool s → ID (heap s p) ≠ "") ∧
  (∀ k r x, rooms s !! k = Some r → x ∈ r → x ≠ "").
Proof.
  intros Hinv%inv_reachable. split.
  - apply (inv_pool_id s Hinv).
  - apply (inv_rooms_id s Hinv).
Qed.

Lemma empty_id_never_queued_or_paired_witness :
  reachable state_AB_matched ∧
  rooms state_AB_matched !! "r" = Some ["A"; "B"] ∧ "B" ≠ "".
Proof.
  split; [apply reachable_state_AB_matched|]. split; [reflexivity|].
  destruct (empty_id_never_queued_or_paired state_AB_matched
              reachable_state_AB_matched) as [_ Hrooms].
  apply (Hrooms "r" ["A"; "B"] "B" eq_refl). right. by left.
Defined.

(** X7: the waiting list of the stats snapshot only shows queued players:
    every struct in [WaitingPlayersList] is an entry of the pool. *)
Theorem waiting_list_within_pool s p :
  reachable s → p ∈ WaitingPlayersList (statsHandler s).1 → p ∈ pool s.
Proof.
  intros Hinv%inv_reachable Hp. simpl in Hp.
  apply waitingPlayers_elem in Hp as (k & Hk & Hm).
  by apply (inv_queued s Hinv k).
Qed.

Lemma waiting_list_within_pool_witness :
  reachable state_AB ∧
  1%nat ∈ WaitingPlayersList (statsHandler state_AB).1 ∧
  1%nat ∈ pool state_AB.
Proof.
  assert (Hin : 1%nat ∈ WaitingPlayersList (statsHandler state_AB).1).
  { apply waitingPlayers_elem. exists "B". split; reflexivity. }
  split; [apply reachable_state_AB|]. split; [exact Hin|].
  exact (waiting_list_within_pool state_AB 1%nat reachable_state_AB Hin).
Defined.

(** ** What a step never changes *)

Lemma reach_trans G s0 s1 s2 :
  reach G s0 s1 → reach G s1 s2 → reach G s0 s2.
Proof. intros H1. induction 1; [done | by econstructor]. Qed.

Lemma fields_alter_OpponentID (h : addr → Player) c a x :
  ID (alter (set_OpponentID c) a h x) = ID (h x) ∧
  CreatedAt (alter (set_OpponentID c) a h x) = CreatedAt (h x) ∧
  Matched (alter (set_OpponentID c) a h x) = Matched (h x) ∧
  RoomID (alter (set_OpponentID c) a h x) = RoomID (h x).
Proof.
  destruct (decide (a = x)) as [->|Hne].
  - by rewrite fn_lookup_alter.
  - by rewrite fn_lookup_alter_ne.
Qed.

(** One step keeps the identity of every allocated struct and everything
    the matching loop wrote into a matched one. *)
Lemma step_keeps_struct e s s' a :
  wf s → step e s = Some s' → (a < next_addr s)%nat →
  (next_addr s ≤ next_addr s')%nat ∧
  ID (heap s' a) = ID (heap s a) ∧
  CreatedAt (heap s' a) = CreatedAt (heap s a) ∧
  (Matched (heap s a) = true →
   Matched (heap s' a) = true ∧ RoomID (heap s' a) = RoomID (heap s a)).
Proof.
  intros Hwf Hs' Ha.
  assert (Hsel : ∀ player,
    (next_addr s ≤ next_addr (status_select player s).2)%nat ∧
    ID (heap (status_select player s).2 a) = ID (heap s a) ∧
    CreatedAt (heap (status_select player s).2 a) = CreatedAt (heap s a) ∧
    (Matched (heap s a) = true →
     Matched (heap (status_select player s).2 a) = true ∧
     RoomID (heap (status_select player s).2 a) = RoomID (heap s a))).
  { intros player. unfold status_select.
    destruct (Chan.try_recv _) as [[v c]|]; simpl; [|done].
    destruct (fields_alter_OpponentID (heap s) c player a) as (-> & -> & -> & ->).
    done. }
  destruct e; simpl in Hs'.
  - injection Hs' as <-. unfold handleJoin. case_decide; [done|]. simpl.
    rewrite fn_lookup_insert_ne by lia. split_and!; [lia|done..].
  - injection Hs' as <-. unfold handleCancel. by case_decide.
  - injection Hs' as <-.
    destruct (handleStatus_state playerID s) as [->|[player ->]]; [done|].
    apply (Hsel player).
  - injection Hs' as <-. apply Hsel.
  - by injection Hs' as <-.
  - by injection Hs' as <-.
  - destruct (pool s) as [|p1 [|p2 rest]] eqn:Hpool.
    + rewrite matchPlayers_short in Hs'; [by simplify_eq | rewrite Hpool; simpl; lia].
    + rewrite matchPlayers_short in Hs'; [by simplify_eq | rewrite Hpool; simpl; lia].
    + destruct (wf_front s p1 p2 rest Hwf Hpool) as (H12&H1&H2&Hnd&Hc1&Hc2).
      destruct (matchPlayers_pair roomID s p1 p2 rest)
        as (s''&Heq&Hp&Hr&Hpl&Hn&Hh1&Hh2&Hh); try done.
      assert (s'' = s') as -> by congruence. clear Heq Hs'.
      assert (Hu1 : Matched (heap s p1) = false).
      { apply (wf_pool_unmatched s Hwf). rewrite Hpool. by left. }
      assert (Hu2 : Matched (heap s p2) = false).
      { apply (wf_pool_unmatched s Hwf). rewrite Hpool. right; by left. }
      split; [lia|].
      destruct (decide (a = p1)) as [->|Hn1].
      { rewrite Hh1. simpl. split_and!; [done..|congruence]. }
      destruct (decide (a = p2)) as [->|Hn2].
      { rewrite Hh2. simpl. split_and!; [done..|congruence]. }
      by rewrite Hh.
  - destruct (cleanupOldRooms_spec s (wf_rooms_len s Hwf)) as (rs' & Heq & _).
    rewrite Heq in Hs'. by injection Hs' as <-.
Qed.

(** X8: what is written once stays.  Along any execution from a reachable
    state, an allocated struct keeps its [ID] and [CreatedAt]; and once it
    is [Matched] it stays [Matched] with the same [RoomID]: the matching
    loop writes the match fields of a struct at most once. *)
Theorem match_fields_written_once s s' a :
  reachable s → reach (λ _ _, True) s s' → (a < next_addr s)%nat →
  ID (heap s' a) = ID (heap s a) ∧
  CreatedAt (heap s' a) = CreatedAt (heap s a) ∧
  (Matched (heap s a) = true →
   Matched (heap s' a) = true ∧ RoomID (heap s' a) = RoomID (heap s a)).
Proof.
  intros Hr Hreach Ha.
  enough (H : (next_addr s ≤ next_addr s')%nat ∧
    ID (heap s' a) = ID (heap s a) ∧
    CreatedAt (heap s' a) = CreatedAt (heap s a) ∧
    (Matched (heap s a) = true →
     Matched (heap s' a) = true ∧ RoomID (heap s' a) = RoomID (heap s a)))
    by (destruct H as (_ & H); exact H).
  induction Hreach as [|e s1 s2 Hreach IH _ Hs2]; [done|].
  destruct IH as (Hn & Hid & Hcr & Hm).
  assert (Hwf1 : wf s1).
  { apply wf_reachable. by eapply reach_trans. }
  destruct (step_keeps_struct e s1 s2 a Hwf1 Hs2) as (Hn' & Hid' & Hcr' & Hm');
    [lia|].
  split_and!; [lia|congruence..|].
  intros Hma. destruct (Hm Hma) as [Hm1 Hr1].
  destruct (Hm' Hm1) as [Hm2 Hr2]. split; congruence.
Qed.

Lemma match_fields_written_once_witness :
  reachable state_AB_matched ∧
  reach (λ _ _, True) state_AB_matched state_A_polled ∧
  (1 < next_addr state_AB_matched)%nat ∧
  Matched (heap state_A_polled 1%nat) = true ∧
  RoomID (heap state_A_polled 1%nat) = "r".
Proof.
  assert (Hreach : reach (λ _ _, True) state_AB_matched state_A_polled).
  { apply (reach_step _ _ (EStatus "A") state_AB_matched);
      [constructor | done | reflexivity]. }
  assert (Hlt : (1 < next_addr state_AB_matched)%nat) by (vm_compute; lia).
  split; [apply reachable_state_AB_matched|]. split; [exact Hreach|].
  split; [exact Hlt|].
  destruct (match_fields_written_once state_AB_matched state_A_polled 1%nat
              reachable_state_AB_matched Hreach Hlt) as (_ & _ & Hm).
  exact (Hm eq_refl).
Defined.

(** ** Delivery of a match *)

(** X9: a pairing is delivered to both sides.  When the two front-most
    pool entries of a reachable state are the structs registered under
    the ids [a] and [b], the matching tick followed by a poll of [a] and
    a poll of [b] gives [a] the opponent [b], gives [b] the opponent [a],
    both with the room id of the tick; the ids differ, both players are
    then deleted from the registry, and the room lists [a] and [b]. *)
Theorem pairing_delivered_to_both roomID s a b p1 p2 rest :
  reachable s → pool s = p1 :: p2 :: rest →
  players s !! a = Some p1 → players s !! b = Some p2 →
  ∃ s1 s2 s3,
    matchPlayers roomID s = Some s1 ∧
    handleStatus a s1 = (matched_response b roomID, s2) ∧
    handleStatus b s2 = (matched_response a roomID, s3) ∧
    a ≠ b ∧
    players s3 = delete b (delete a (players s)) ∧
    rooms s3 !! roomID = Some [a; b].
Proof.
  intros Hr Hpool Ha Hb. pose proof (wf_reachable s Hr) as Hwf.
  destruct (wf_front s p1 p2 rest Hwf Hpool) as (H12&H1&H2&Hnd&Hc1&Hc2).
  destruct (registry_key_is_struct_id_aux s a p1 Hr Ha) as (Hane & Hida & _).
  destruct (registry_key_is_struct_id_aux s b p2 Hr Hb) as (Hbne & Hidb & _).
  assert (Hab : a ≠ b) by (intros ->; congruence).
  destruct (matchPlayers_pair roomID s p1 p2 rest)
    as (s1&Hs1&Hp&Hrm&Hpl&Hn&Hh1&Hh2&Hh); try done.
  rewrite Hida, Hidb in *.
  exists s1. eexists. eexists. split; [exact Hs1|].
  split.
  { rewrite (handleStatus_matched a s1 p1 b []); [|done|by rewrite Hpl|by rewrite Hh1].
    rewrite Hh1. reflexivity. }
  split.
  { rewrite (handleStatus_matched b _ p2 a []); [|done| |].
    - simpl. heap_simpl. rewrite Hh2. reflexivity.
    - simpl. rewrite lookup_delete_ne by done. by rewrite Hpl.
    - simpl. heap_simpl. by rewrite Hh2. }
  split; [done|]. simpl. split.
  - by rewrite Hpl.
  - rewrite Hrm. apply lookup_insert_eq.
Qed.

Lemma pairing_delivered_to_both_witness :
  reachable state_AB ∧ pool state_AB = [0%nat; 1%nat] ∧
  players state_AB !! "A" = Some 0%nat ∧
  players state_AB !! "B" = Some 1%nat ∧
  ∃ s1 s2 s3,
    matchPlayers "r" state_AB = Some s1 ∧
    handleStatus "A" s1 = (matched_response "B" "r", s2) ∧
    handleStatus "B" s2 = (matched_response "A" "r", s3).
Proof.
  split; [apply reachable_state_AB|]. split_and!; [reflexivity..|].
  destruct (pairing_delivered_to_both "r" state_AB "A" "B" 0%nat 1%nat []
              reachable_state_AB eq_refl eq_refl eq_refl)
    as (s1 & s2 & s3 & H1 & H2 & H3 & _).
  exists s1, s2, s3. split_and!; [exact H1 | exact H2 | exact H3].
Defined.

(** ** How the handlers compose *)

(** X10: cancel then poll.  After a cancel of a non-empty id, in any
    state, a poll of that id answers 404 and changes nothing, whether or
    not the player had been paired. *)
Theorem poll_after_cancel_not_found playerID s :
  playerID ≠ "" →
  handleStatus playerID (handleCancel playerID s).2
    = (not_found, (handleCancel playerID s).2).
Proof.
  intros Hid. apply handleStatus_absent; [done|].
  unfold handleCancel. rewrite decide_False by done. simpl.
  apply lookup_delete_eq.
Qed.

Lemma poll_after_cancel_not_found_witness :
  "A" ≠ "" ∧
  handleStatus "A" state_AB_matched = (matched_response "B" "r", state_A_polled) ∧
  (handleStatus "A" (handleCancel "A" state_AB_matched).2).1 = not_found.
Proof.
  split; [discriminate|]. split; [vm_compute; reflexivity|].
  rewrite (poll_after_cancel_not_found "A" state_AB_matched); [reflexivity|].
  discriminate.
Defined.

(** X11: join then poll.  After a join of a non-empty id, in any state, a
    poll of that id answers [waiting] and changes nothing: the registry
    now points to the new struct, so a match result that an earlier
    struct of the same id still held is no longer delivered. *)
Theorem poll_after_join_waiting playerID now s :
  playerID ≠ "" →
  handleStatus playerID (handleJoin playerID now s).2
    = (waiting_response, (handleJoin playerID now s).2).
Proof.
  intros Hid. apply (handleStatus_waiting _ _ (next_addr s)); [done|..];
    unfold handleJoin; rewrite decide_False by done; simpl.
  - apply lookup_insert_eq.
  - by heap_simpl.
Qed.

Lemma poll_after_join_waiting_witness :
  "A" ≠ "" ∧
  (handleStatus "A" state_AB_matched).1 = matched_response "B" "r" ∧
  (handleStatus "A" (handleJoin "A" 9 state_AB_matched).2).1
    = waiting_response.
Proof.
  split; [discriminate|]. split; [vm_compute; reflexivity|].
  rewrite (poll_after_join_waiting "A" 9 state_AB_matched); [reflexivity|].
  discriminate.
Defined.

Lemma pool_remove_last (h : addr → Player) x l q :
  (∀ p, p ∈ l → ID (h p) ≠ x) → ID (h q) = x →
  pool_remove h x (l ++ [q]) = l.
Proof.
  intros Hl Hq. induction l as [|p l IH]; simpl.
  - by rewrite decide_True.
  - rewrite decide_False by (apply Hl; by left).
    rewrite IH; [done|]. intros p' Hp'. apply Hl. by right.
Qed.

(** X12: join then cancel.  For a non-empty id that is neither registered
    nor carried by a pool entry of a reachable state, a join followed by a
    cancel of that id restores the registry, the pool and the rooms; only
    the allocation counter has moved. *)
Theorem cancel_undoes_join playerID now s :
  reachable s → playerID ≠ "" →
  players s !! playerID = None → playerID ∉ pool_ids s →
  players (handleCancel playerID (handleJoin playerID now s).2).2 = players s ∧
  pool (handleCancel playerID (handleJoin playerID now s).2).2 = pool s ∧
  rooms (handleCancel playerID (handleJoin playerID now s).2).2 = rooms s ∧
  next_addr (handleCancel playerID (handleJoin playerID now s).2).2
    = S (next_addr s).
Proof.
  intros Hwf%wf_reachable Hid Hreg Hpool.
  unfold handleCancel, handleJoin. rewrite !decide_False by done. simpl.
  split_and!; [|apply pool_remove_last|done..].
  - by apply delete_insert_id.
  - intros p Hp. pose proof (wf_pool_bound s Hwf p Hp).
    rewrite fn_lookup_insert_ne by lia. intros Heq. apply Hpool.
    unfold pool_ids. apply list_elem_of_fmap. by exists p.
  - by heap_simpl.
Qed.

Lemma cancel_undoes_join_witness :
  reachable state_AB ∧ "C" ≠ "" ∧ players state_AB !! "C" = None ∧
  ("C" ∉ pool_ids state_AB) ∧
  pool (handleCancel "C" (handleJoin "C" 3 state_AB).2).2 = pool state_AB.
Proof.
  assert (Hout : "C" ∉ pool_ids state_AB).
  { vm_compute. intros [Hc|Hc]%elem_of_cons; [discriminate|].
    by apply list_elem_of_singleton in Hc. }
  split; [apply reachable_state_AB|]. split; [discriminate|].
  split; [reflexivity|]. split; [exact Hout|].
  destruct (cancel_undoes_join "C" 3 state_AB reachable_state_AB
              ltac:(discriminate) eq_refl Hout) as (_ & Hp & _).
  exact Hp.
Defined.

Lemma pool_remove_length_le (h : addr → Player) x l :
  (length l ≤ S (length (pool_remove h x l)))%nat.
Proof.
  induction l as [|p l IH]; simpl; [lia|]. case_decide; simpl; lia.
Qed.

Lemma pool_remove_length_in (h : addr → Player) x l :
  x ∈ (λ p, ID (h p)) <$> l →
  length l = S (length (pool_remove h x l)).
Proof.
  induction l as [|p l IH]; simpl.
  - intros Hin. by apply elem_of_nil in Hin.
  - intros Hin. case_decide as Hp; [done|]. simpl. f_equal. apply IH.
    apply elem_of_cons in Hin as [Heq|Hin]; [congruence|done].
Qed.

(** X13: a cancel of a non-empty id removes at most one pool entry and
    never reorders: the new pool is a sublist of the old one, every entry
    that carries another id stays, exactly one entry goes when some entry
    carries the id, and the pool is unchanged when none does. *)
Theorem cancel_removes_one_entry playerID s :
  playerID ≠ "" →
  pool (handleCancel playerID s).2 `sublist_of` pool s ∧
  (∀ p, p ∈ pool s → ID (heap s p) ≠ playerID →
        p ∈ pool (handleCancel playerID s).2) ∧
  (playerID ∈ pool_ids s →
   length (pool s) = S (length (pool (handleCancel playerID s).2))) ∧
  (playerID ∉ pool_ids s → pool (handleCancel playerID s).2 = pool s).
Proof.
  intros Hid. unfold handleCancel. rewrite decide_False by done. simpl.
  split_and!.
  - apply pool_remove_sublist.
  - intros p. apply pool_remove_keeps.
  - apply pool_remove_length_in.
  - apply pool_remove_absent.
Qed.

Lemma cancel_removes_one_entry_witness :
  "C" ≠ "" ∧
  pool_ids state_five = ["A"; "B"; "C"; "D"; "E"] ∧
  pool_ids (handleCancel "C" state_five).2 = ["A"; "B"; "D"; "E"] ∧
  pool (handleCancel "C" state_five).2 `sublist_of` pool state_five.
Proof.
  split; [discriminate|]. split; [vm_compute; reflexivity|].
  split; [vm_compute; reflexivity|].
  destruct (cancel_removes_one_entry "C" state_five) as (Hsub & _).
  - discriminate.
  - exact Hsub.
Defined.

(** ** Orderly executions: the pool is a part of the registry *)








(** ** The two cleanup loops *)

Lemma cleanup_visit_both_pair pl rs room a b :
  cleanup_visit_both pl (Some rs) (room, [a; b]) =
    Some (if decide (is_Some (pl !! a) ∨ is_Some (pl !! b))
          then rs else delete room rs).
Proof.
  unfold cleanup_visit_both. simpl.
  destruct (decide (is_Some (pl !! a))) as [Ha|Ha];
    destruct (decide (is_Some (pl !! b))) as [Hb|Hb].
  - rewrite !bool_decide_eq_true_2 by done. simpl.
    by rewrite decide_True by by left.
  - rewrite (bool_decide_eq_true_2 _ Ha), (bool_decide_eq_false_2 _ Hb).
    simpl. by rewrite decide_True by by left.
  - rewrite (bool_decide_eq_false_2 _ Ha), (bool_decide_eq_true_2 _ Hb).
    simpl. by rewrite decide_True by by right.
  - rewrite !bool_decide_eq_false_2 by done. simpl.
    rewrite decide_False; [done | tauto].
Qed.

(** The loop of the second copy over a list of two-member rooms. *)
Lemma cleanup_both_fold pl (l : list (string * list string)) :
  ∀ rs : gmap string (list string),
  (∀ kv, kv ∈ l → length kv.2 = 2%nat) →
  ∃ rs', foldl (cleanup_visit_both pl) (Some rs) l = Some rs' ∧
    (∀ k, rs' !! k = None ∨ rs' !! k = rs !! k) ∧
    (∀ k a b, (k, [a; b]) ∈ l → pl !! a = None → pl !! b = None →
              rs' !! k = None) ∧
    (∀ k, (∀ a b, (k, [a; b]) ∈ l → is_Some (pl !! a) ∨ is_Some (pl !! b)) →
          rs' !! k = rs !! k).
Proof.
  induction l as [|[room r] l IH]; intros rs Hlen.
  { exists rs. split_and!; [done|by right| |done].
    intros k a b Hin. by apply elem_of_nil in Hin. }
  destruct (length_two r) as (a0 & b0 & ->).
  { apply (Hlen (room, r)). by left. }
  cbn [foldl]. rewrite cleanup_visit_both_pair.
  set (rs1 := if decide _ then rs else delete room rs).
  destruct (IH rs1) as (rs' & Hrun & Hsub & Hdead & Hlive).
  { intros kv Hin. apply Hlen. by right. }
  assert (Hsub1 : ∀ k, rs1 !! k = None ∨ rs1 !! k = rs !! k).
  { intros k. unfold rs1. case_decide; [by right|].
    destruct (decide (room = k)) as [->|Hne].
    - left. apply lookup_delete_eq.
    - right. by apply lookup_delete_ne. }
  exists rs'. split_and!; [done| | |].
  - intros k. destruct (Hsub k) as [-> | ->]; [by left | apply Hsub1].
  - intros k a b [Heq|Hin]%elem_of_cons Ha Hb; [|by eapply Hdead].
    assert (k = room ∧ a = a0 ∧ b = b0) as (-> & -> & ->) by by simplify_eq.
    destruct (Hsub room) as [-> | ->]; [done|].
    unfold rs1. rewrite decide_False; [apply lookup_delete_eq|].
    intros [[? ?]|[? ?]]; congruence.
  - intros k Hk. rewrite Hlive.
    + unfold rs1. case_decide as Hd; [done|].
      destruct (decide (room = k)) as [->|Hne]; [|by apply lookup_delete_ne].
      destruct Hd. apply Hk. by left.
    + intros a b Hin. apply Hk. by right.
Qed.

Lemma cleanupOldRooms_both_spec s :
  (∀ k r, rooms s !! k = Some r → length r = 2%nat) →
  ∃ rs', cleanupOldRooms_both s =
           Some {| heap := heap s; next_addr := next_addr s;
                   players := players s; rooms := rs'; pool := pool s |} ∧
    (∀ k, rs' !! k = None ∨ rs' !! k = rooms s !! k) ∧
    (∀ k a b, rooms s !! k = Some [a; b] →
              players s !! a = None → players s !! b = None →
              rs' !! k = None) ∧
    (∀ k a b, rooms s !! k = Some [a; b] →
              is_Some (players s !! a) ∨ is_Some (players s !! b) →
              rs' !! k = Some [a; b]).
Proof.
  intros Hlen.
  destruct (cleanup_both_fold (players s) (map_to_list (rooms s)) (rooms s))
    as (rs' & Hrun & Hsub & Hdead & Hlive).
  { intros [k r] Hin%elem_of_map_to_list. by eapply Hlen. }
  exists rs'. unfold cleanupOldRooms_both. rewrite Hrun. simpl.
  split_and!; [done|done| |].
  - intros k a b Hk. apply Hdead. by apply elem_of_map_to_list.
  - intros k a b Hk Hab. rewrite Hlive; [done|].
    intros a' b' Hin%elem_of_map_to_list. by simplify_eq.
Qed.

(** X15: the cleanup loop of the second copy of the program.  In a
    reachable state it runs to its end, touches nothing but the room
    registry, creates no room, deletes a room exactly when both member
    ids are missing from [players], and keeps it as soon as one of the
    two is still registered. *)
Theorem cleanup_both_rooms s :
  reachable s →
  ∃ s', cleanupOldRooms_both s = Some s' ∧
    players s' = players s ∧ pool s' = pool s ∧ heap s' = heap s ∧
    (∀ room, rooms s !! room = None → rooms s' !! room = None) ∧
    ∀ room a b, rooms s !! room = Some [a; b] →
      (players s !! a = None → players s !! b = None →
       rooms s' !! room = None) ∧
      (is_Some (players s !! a) ∨ is_Some (players s !! b) →
       rooms s' !! room = Some [a; b]).
Proof.
  intros Hwf%wf_reachable.
  destruct (cleanupOldRooms_both_spec s (wf_rooms_len s Hwf))
    as (rs' & Hrun & Hsub & Hdead & Hlive).
  eexists. split; [exact Hrun|]. simpl. split_and!; try done.
  - intros room Hn. destruct (Hsub room) as [?|He]; congruence.
  - intros room a b Hr. split; [by apply Hdead | by apply Hlive].
Qed.

Lemma cleanup_both_rooms_witness :
  reachable state_A_polled ∧
  rooms state_A_polled !! "r" = Some ["A"; "B"] ∧
  players state_A_polled !! "A" = None ∧
  ∃ s', cleanupOldRooms_both state_A_polled = Some s' ∧
        rooms s' !! "r" = Some ["A"; "B"].
Proof.
  split; [apply reachable_state_A_polled|]. split; [reflexivity|].
  split; [reflexivity|].
  destruct (cleanup_both_rooms state_A_polled reachable_state_A_polled)
    as (s' & Hs' & _ & _ & _ & _ & Hrooms).
  destruct (Hrooms "r" "A" "B" eq_refl) as [_ Hkeep].
  exists s'. split; [exact Hs'|]. apply Hkeep. right. by eexists.
Defined.

(** X16: the two copies of the cleanup loop compared.  On every reachable
    state both run to their end, and the rooms left by the loop of
    [main.go] are among the rooms left by the loop of the second copy,
    which are among the rooms that were there: [main.go] deletes at least
    as much. *)
Theorem cleanup_deletes_more_than_both s :
  reachable s →
  ∃ s1 s2, cleanupOldRooms s = Some s1 ∧ cleanupOldRooms_both s = Some s2 ∧
    rooms s1 ⊆ rooms s2 ∧ rooms s2 ⊆ rooms s.
Proof.
  intros Hwf%wf_reachable.
  destruct (cleanupOldRooms_spec s (wf_rooms_len s Hwf))
    as (rs1 & Hrun1 & Hsub1 & Hdead1 & _).
  destruct (cleanupOldRooms_both_spec s (wf_rooms_len s Hwf))
    as (rs2 & Hrun2 & Hsub2 & _ & Hlive2).
  eexists. eexists. split; [exact Hrun1|]. split; [exact Hrun2|]. simpl.
  split; apply map_subseteq_spec; intros k r Hk.
  - destruct (Hsub1 k) as [?|He]; [congruence|]. rewrite Hk in He.
    symmetry in He.
    destruct (length_two r (wf_rooms_len s Hwf k r He)) as (a & b & ->).
    apply (Hlive2 k a b He).
    destruct (players s !! a) as [pa|] eqn:Ha; [left; by eexists|].
    rewrite (Hdead1 k a b He) in Hk; [done|]. by left.
  - destruct (Hsub2 k) as [?|He]; congruence.
Qed.

Lemma cleanup_deletes_more_than_both_witness :
  reachable state_A_polled ∧
  ∃ s1 s2, cleanupOldRooms state_A_polled = Some s1 ∧
           cleanupOldRooms_both state_A_polled = Some s2 ∧
           rooms s1 ⊆ rooms s2.
Proof.
  split; [apply reachable_state_A_polled|].
  destruct (cleanup_deletes_more_than_both state_A_polled
              reachable_state_A_polled) as (s1 & s2 & H1 & H2 & Hsub & _).
  exists s1, s2. split_and!; [exact H1 | exact H2 | exact Hsub].
Defined.

(** X17: the cleanup loop of [main.go] is idempotent: in a reachable
    state a second run right after the first changes nothing. *)
Theorem cleanup_idempotent s :
  reachable s →
  ∃ s1, cleanupOldRooms s = Some s1 ∧ cleanupOldRooms s1 = Some s1.
Proof.
  intros Hwf%wf_reachable.
  destruct (cleanupOldRooms_spec s (wf_rooms_len s Hwf))
    as (rs1 & Hrun1 & Hsub1 & Hdead1 & _).
  eexists. split; [exact Hrun1|].
  assert (Hlen1 : ∀ k r, rs1 !! k = Some r → length r = 2%nat).
  { intros k r Hk. destruct (Hsub1 k) as [?|He]; [congruence|].
    apply (wf_rooms_len s Hwf k). congruence. }
  match goal with |- cleanupOldRooms ?s1 = _ =>
    destruct (cleanupOldRooms_spec s1 Hlen1) as (rs2 & Hrun2 & Hsub2 & _ & Hlive2)
  end.
  rewrite Hrun2. simpl in *. do 2 f_equal. apply map_eq. intros k.
  destruct (rs1 !! k) as [r|] eqn:Hk.
  - destruct (length_two r (Hlen1 k r Hk)) as (a & b & ->).
    assert (Hs : rooms s !! k = Some [a; b]).
    { destruct (Hsub1 k) as [?|He]; congruence. }
    apply (Hlive2 k a b Hk).
    + destruct (players s !! a) eqn:Ha; [by eexists|].
      rewrite (Hdead1 k a b Hs) in Hk; [done|by left].
    + destruct (players s !! b) eqn:Hb; [by eexists|].
      rewrite (Hdead1 k a b Hs) in Hk; [done|by right].
  - destruct (Hsub2 k) as [?|He]; congruence.
Qed.

Lemma cleanup_idempotent_witness :
  reachable state_A_polled ∧
  ∃ s1, cleanupOldRooms state_A_polled = Some s1 ∧
        cleanupOldRooms s1 = Some s1.
Proof.
  split; [apply reachable_state_A_polled|].
  exact (cleanup_idempotent state_A_polled reachable_state_A_polled).
Defined.

(** ** Polls, cleanup and late cancels *)

Lemma handleStatus_ignores_rooms playerID s rs :
  (handleStatus playerID
     {| heap := heap s; next_addr := next_addr s; players := players s;
        rooms := rs; pool := pool s |}).1
    = (handleStatus playerID s).1 ∧
  players (handleStatus playerID
     {| heap := heap s; next_addr := next_addr s; players := players s;
        rooms := rs; pool := pool s |}).2
    = players (handleStatus playerID s).2.
Proof.
  unfold handleStatus, status_select. simpl. case_decide; [done|].
  destruct (players s !! playerID) as [player|]; [|done].
  by destruct (Chan.try_recv _) as [[v c]|].
Qed.

(** X18: a poll does not depend on the room registry: in a reachable
    state, the answer of a poll and the registry it leaves are the same
    after a cleanup run as before it.  In particular a [matched] answer
    carries the room id stored in the player's struct even when the
    cleanup has already deleted that room. *)
Theorem poll_unaffected_by_cleanup s :
  reachable s →
  ∃ s', cleanupOldRooms s = Some s' ∧
    ∀ playerID,
      (handleStatus playerID s').1 = (handleStatus playerID s).1 ∧
      players (handleStatus playerID s').2
        = players (handleStatus playerID s).2.
Proof.
  intros Hwf%wf_reachable.
  destruct (cleanupOldRooms_spec s (wf_rooms_len s Hwf)) as (rs' & Hrun & _).
  eexists. split; [exact Hrun|]. intros playerID.
  apply handleStatus_ignores_rooms.
Qed.

Lemma poll_unaffected_by_cleanup_witness :
  reachable state_A_polled ∧
  ∃ s', cleanupOldRooms state_A_polled = Some s' ∧
        rooms s' !! "r" = None ∧
        (handleStatus "B" s').1 = matched_response "A" "r".
Proof.
  split; [apply reachable_state_A_polled|].
  destruct (poll_unaffected_by_cleanup state_A_polled
              reachable_state_A_polled) as (s' & Hs' & Hpoll).
  exists s'. split; [exact Hs'|]. split.
  - assert (Hc : cleanupOldRooms state_A_polled
                 = Some (the (cleanupOldRooms state_A_polled)))
      by (vm_compute; reflexivity).
    rewrite Hc in Hs'. injection Hs' as <-. vm_compute. reflexivity.
  - destruct (Hpoll "B") as [-> _]. vm_compute. reflexivity.
Defined.

(** X19: a cancel that comes after the match is not retroactive.  When
    the two front-most pool entries of a reachable state are registered
    under [a] and [b], then after the matching tick and a cancel of [a],
    the poll of [b] still answers [matched] with opponent [a] and the
    room id, the room still lists [a] and [b], and a poll of [a] answers
    404. *)
Theorem cancel_after_match_not_retroactive roomID s a b p1 p2 rest :
  reachable s → pool s = p1 :: p2 :: rest →
  players s !! a = Some p1 → players s !! b = Some p2 →
  ∃ s1, matchPlayers roomID s = Some s1 ∧
    (handleCancel a s1).1 = cancelled_response ∧
    (handleStatus b (handleCancel a s1).2).1 = matched_response a roomID ∧
    (handleStatus a (handleCancel a s1).2).1 = not_found ∧
    rooms (handleCancel a s1).2 !! roomID = Some [a; b] ∧
    pool (handleCancel a s1).2 `sublist_of` rest.
Proof.
  intros Hr Hpool Ha Hb. pose proof (wf_reachable s Hr) as Hwf.
  destruct (wf_front s p1 p2 rest Hwf Hpool) as (H12&H1&H2&Hnd&Hc1&Hc2).
  destruct (registry_key_is_struct_id_aux s a p1 Hr Ha) as (Hane & Hida & _).
  destruct (registry_key_is_struct_id_aux s b p2 Hr Hb) as (Hbne & Hidb & _).
  assert (Hab : a ≠ b) by (intros ->; congruence).
  destruct (matchPlayers_pair roomID s p1 p2 rest)
    as (s1&Hs1&Hp&Hrm&Hpl&Hn&Hh1&Hh2&Hh); try done.
  rewrite Hida, Hidb in *.
  exists s1. split; [exact Hs1|].
  unfold handleCancel. rewrite decide_False by done. simpl.
  split; [done|]. split_and!.
  - rewrite (handleStatus_matched b _ p2 a []); [|done| |].
    + simpl. by rewrite Hh2.
    + simpl. rewrite lookup_delete_ne by done. by rewrite Hpl.
    + simpl. by rewrite Hh2.
  - rewrite handleStatus_absent; [done..|]. simpl. apply lookup_delete_eq.
  - rewrite Hrm. apply lookup_insert_eq.
  - rewrite Hp. apply pool_remove_sublist.
Qed.

Lemma cancel_after_match_not_retroactive_witness :
  reachable state_AB ∧ pool state_AB = [0%nat; 1%nat] ∧
  players state_AB !! "A" = Some 0%nat ∧
  players state_AB !! "B" = Some 1%nat ∧
  ∃ s1, matchPlayers "r" state_AB = Some s1 ∧
    (handleStatus "B" (handleCancel "A" s1).2).1 = matched_response "A" "r".
Proof.
  split; [apply reachable_state_AB|]. split_and!; [reflexivity..|].
  destruct (cancel_after_match_not_retroactive "r" state_AB "A" "B"
              0%nat 1%nat [] reachable_state_AB eq_refl eq_refl eq_refl)
    as (s1 & H1 & _ & H2 & _).
  exists s1. split; [exact H1 | exact H2].
Defined.

(** ** First come, first served, end to end *)

Lemma run_app evs1 : ∀ evs2 s,
  run (evs1 ++ evs2) s = s1 ← run evs1 s; run evs2 s1.
Proof.
  induction evs1 as [|e evs1 IH]; intros evs2 s; simpl; [done|].
  destruct (step e s) as [s1|]; simpl; [apply IH | done].
Qed.

(** X20: first come, first served.  Starting from the initial state, a
    batch of joins followed by [n] matching ticks with pairwise different
    room ids, where at least [2n] of the joins carried a non-empty id,
    runs to its end; the room of the [i]-th tick holds the ids of the
    accepted joins number [2i] and [2i+1], in arrival order, and the
    players left in the pool are the later arrivals, in arrival order. *)
Theorem first_come_first_served js roomIDs :
  NoDup roomIDs →
  (2 * length roomIDs ≤ length (accepted_ids js))%nat →
  ∃ s', run (join_events js ++ match_events roomIDs) init = Some s' ∧
    pool_ids s' = drop (2 * length roomIDs) (accepted_ids js) ∧
    ∀ i r a b, roomIDs !! i = Some r →
      accepted_ids js !! (2 * i)%nat = Some a →
      accepted_ids js !! (2 * i + 1)%nat = Some b →
      rooms s' !! r = Some [a; b].
Proof.
  intros Hnd Hlen.
  destruct (join_events_pool js init wf_init)
    as (s1 & Hrun1 & Hwf1 & Hids1 & Hlen1 & _).
  simpl in Hids1, Hlen1.
  destruct (match_events_pairs roomIDs s1 Hwf1 Hnd)
    as (s' & Hrun2 & _ & _ & Hids2 & Hpairs); [lia|].
  exists s'. rewrite run_app, Hrun1. simpl. split; [exact Hrun2|].
  rewrite Hids1 in Hids2, Hpairs. split; [exact Hids2 | exact Hpairs].
Qed.

Lemma first_come_first_served_witness :
  NoDup ["r1"; "r2"] ∧
  ∃ s', run (join_events [("A", 1); ("", 2); ("B", 3); ("C", 4); ("D", 5);
                          ("E", 6)]
             ++ match_events ["r1"; "r2"]) init = Some s' ∧
        pool_ids s' = ["E"] ∧
        rooms s' !! "r1" = Some ["A"; "B"] ∧
        rooms s' !! "r2" = Some ["C"; "D"].
Proof.
  assert (Hnd : NoDup ["r1"; "r2"]).
  { apply NoDup_cons. split; [|apply NoDup_singleton].
    by intros [=]%list_elem_of_singleton. }
  split; [exact Hnd|].
  destruct (first_come_first_served
              [("A", 1); ("", 2); ("B", 3); ("C", 4); ("D", 5); ("E", 6)]
              ["r1"; "r2"] Hnd) as (s' & Hrun & Hids & Hpairs).
  { vm_compute. lia. }
  exists s'. split; [exact Hrun|]. split_and!.
  - exact Hids.
  - exact (Hpairs 0%nat "r1" "A" "B" eq_refl eq_refl eq_refl).
  - exact (Hpairs 1%nat "r2" "C" "D" eq_refl eq_refl eq_refl).
Defined.
